(** * apply_spec: applying a require/remove/add specification to a scenario

    A shallow embedding of [apply_spec] from
    [message_ix_models/model/material/build.py], together with the
    properties of the structural-migration engine that its specification
    states.

    The function mutates a [Scenario] in place, accumulates removed
    parameter data in a local dictionary [dump], emits log records and may
    raise.  The embedding threads these three pieces of state explicitly
    through a small state-and-exception monad; the state reached when an
    exception is raised is kept, since in-place mutations are not undone. *)

From stdpp Require Import gmap strings list fin_maps.
From Stdlib Require Import ZArith.

Open Scope string_scope.
Open Scope list_scope.

(** ** Elements of a specification *)

(** Modelled from the spec: the class [Code] of [message_data.tools] is
    imported by build.py but defined elsewhere; it is a value object carrying
    an identifier and a name, compared by value. *)
Record Code := mkCode { id : string; name : string }.

#[global] Instance Code_eq_dec : EqDecision Code.
Proof. solve_decision. Defined.

(** An element of a set is a bare identifier (a Python [str]) or a [Code].
    [isinstance(element, Code)] and [isinstance(unit, str)] become pattern
    matching on this type. *)
Inductive element :=
| Ident (s : string)
| Described (c : Code).

#[global] Instance element_eq_dec : EqDecision element.
Proof. solve_decision. Defined.

(** [element.id if isinstance(element, Code) else element] (build.py:121). *)
Definition effective_id (e : element) : string :=
  match e with
  | Described c => id c
  | Ident s => s
  end.

(** [Code(id=unit, name=unit) if isinstance(unit, str) else unit]
    (build.py:135). *)
Definition ensure_Code (unit : element) : Code :=
  match unit with
  | Ident s => mkCode s s
  | Described c => c
  end.

(** Modelled from the spec: [ScenarioInfo] of [message_data.tools] is not
    part of the sources; only its attribute [set] is used, a dictionary from
    set name to a list of elements in which a missing name reads as the empty
    list. *)
Record ScenarioInfo := mkInfo { set : gmap string (list element) }.

(** [info.set[set_name]] *)
Definition set_at (info : ScenarioInfo) (set_name : string) : list element :=
  set info !!! set_name.

(** The mapping [spec] with its keys ['require'], ['remove'] and ['add']. *)
Record Spec := mkSpec {
  require : ScenarioInfo;
  remove : ScenarioInfo;
  add : ScenarioInfo }.

(** [spec.values()] *)
Definition values (spec : Spec) : list ScenarioInfo :=
  [require spec; remove spec; add spec].

(** The keyword options, with [options.get(key, default)] already applied for
    the three flags; [message] is [None] when the caller gave none. *)
Record options := mkOptions {
  dry_run : bool;
  fast : bool;
  quiet : bool;
  message : option string }.

Definition default_options : options := mkOptions false false false None.

(** [f"{__name__}.apply_spec()"] *)
Definition default_message : string :=
  "message_ix_models.model.material.build.apply_spec()".

(** ** Exceptions and outcomes *)

(** [raise ValueError] creates an exception whose [args] are empty. *)
Inductive exception :=
| ValueError (args : list string).

Inductive outcome (A : Type) :=
| Return (a : A)
| Raise (e : exception).
Arguments Return {A} a.
Arguments Raise {A} e.

(** ** The scenario store *)

(** Modelled from the spec: the rows of the parameter tables come from the
    store, which is not part of the sources.  A row is keyed by the
    structural elements it references, each in the role of a set, and
    carries an opaque value. *)
Record row := mkRow { keys : list (string * element); value : Z }.

#[global] Instance row_eq_dec : EqDecision row.
Proof. solve_decision. Defined.

(** Modelled from the spec: the class [Scenario] of [message_ix] and its
    platform are not part of the sources.  The store holds, per set name, an
    ordered collection of elements; per parameter name, a table of rows; the
    unit registry of its platform (identifier and comment); whether solve
    results are present; whether it is checked out; and the messages of the
    commits made to it. *)
Record Scenario := mkScenario {
  set_names : list string;
  set_data : gmap string (list element);
  par_data : list (string * list row);
  units : list (string * string);
  has_solution : bool;
  checked_out : bool;
  commits : list string }.

Module scenario.

(** Modelled from the spec: [scenario.set_list()], the list of the known
    structural set names. *)
Definition set_list (sc : Scenario) : list string := set_names sc.

(** Modelled from the spec: [scenario.set(set_name)], the current elements
    of a named set.  Whether the store returns a series (build.py:82,
    [tolist()]) or a data frame (build.py:80, [itertuples]), [base] is the
    list of the members. *)
Definition set (sc : Scenario) (set_name : string) : list element :=
  set_data sc !!! set_name.

(** Modelled from the spec: [scenario.add_set(set_name, key)] appends an
    element to a named set. *)
Definition add_set (sc : Scenario) (set_name key : string) : Scenario :=
  mkScenario (set_names sc)
    (<[set_name := set sc set_name ++ [Ident key]]> (set_data sc))
    (par_data sc) (units sc) (has_solution sc) (checked_out sc) (commits sc).

(** Modelled from the spec: [scenario.remove_solution()] discards the solve
    results; when there are none it raises the [ValueError] that build.py:64
    passes over. *)
Definition remove_solution (sc : Scenario) : Scenario * outcome unit :=
  if has_solution sc then
    (mkScenario (set_names sc) (set_data sc) (par_data sc) (units sc)
       false (checked_out sc) (commits sc),
     Return tt)
  else (sc, Raise (ValueError ["This Scenario does not have a solution!"])).

(** Modelled from the spec: [maybe_check_out(scenario)] of [ixmp.utils]
    marks the store mutable, and does nothing to a store that is already
    checked out. *)
Definition maybe_check_out (sc : Scenario) : Scenario :=
  if checked_out sc then sc
  else mkScenario (set_names sc) (set_data sc) (par_data sc) (units sc)
         (has_solution sc) true (commits sc).

(** Modelled from the spec: [scenario.platform.add_unit(unit,
    comment=comment)] adds a unit definition, identifier and descriptive
    comment, to the unit registry. *)
Definition add_unit (sc : Scenario) (unit comment : string) : Scenario :=
  mkScenario (set_names sc) (set_data sc) (par_data sc)
    (units sc ++ [(unit, comment)]) (has_solution sc) (checked_out sc)
    (commits sc).

(** Modelled from the spec: [scenario.commit(message)] persists the changes
    and ends the transaction. *)
Definition commit (sc : Scenario) (msg : string) : Scenario :=
  mkScenario (set_names sc) (set_data sc) (par_data sc) (units sc)
    (has_solution sc) false (commits sc ++ [msg]).

End scenario.

(** Modelled from the spec: whether the row [r] references the element
    [value] in the structural role of the set [set_name].  The store knows an
    element by its identifier (build.py:121 hands [add_set] the identifier of
    a [Code]), so a key of the row in that role has to carry the identifier of
    [value], whether the key or [value] is a string or a [Code]. *)
Definition references (set_name : string) (value : element) (r : row) : Prop :=
  Exists (λ k, k.1 = set_name ∧ effective_id k.2 = effective_id value)
    (keys r).

#[global] Instance references_dec set_name value r :
  Decision (references set_name value r).
Proof. unfold references. apply _. Defined.

(** Modelled from the spec: the rows of all parameter tables that reference
    [value] in [set_name], table by table. *)
Definition referencing (sc : Scenario) (set_name : string) (value : element)
  : list row :=
  concat ((λ t, filter (references set_name value) t.2) <$> par_data sc).

(** Modelled from the spec: the store after the removal, from every
    parameter table, of the rows that reference [value] in [set_name]. *)
Definition remove_referencing (sc : Scenario) (set_name : string)
    (value : element) : Scenario :=
  mkScenario (set_names sc) (set_data sc)
    ((λ t, (t.1, filter (λ r, ¬ references set_name value r) t.2))
       <$> par_data sc)
    (units sc) (has_solution sc) (checked_out sc) (commits sc).

(** Modelled from the spec: [strip_par_data] of [message_data.tools] is not
    part of the sources.  It deletes all parameter rows anywhere in the store
    that reference this element in this set's structural role, recording the
    deleted rows into the removed-data ledger [dump] keyed by set name; when
    [dry_run] is true the deletion is suppressed and the rows that would be
    removed are still recorded. *)
Definition strip_par_data (sc : Scenario) (set_name : string)
    (value : element) (dry_run : bool) (dump : gmap string (list row))
  : Scenario * gmap string (list row) :=
  let rows := referencing sc set_name value in
  (if dry_run then sc else remove_referencing sc set_name value,
   <[set_name := dump !!! set_name ++ rows]> dump).

(** Modelled from the spec: merging rows into the table of a parameter; a
    parameter without a table gets one. *)
Fixpoint add_rows (par_name : string) (rows : list row)
    (tables : list (string * list row)) : list (string * list row) :=
  match tables with
  | [] => [(par_name, rows)]
  | t :: tables' =>
      if decide (t.1 = par_name) then (t.1, t.2 ++ rows) :: tables'
      else t :: add_rows par_name rows tables'
  end.

(** Modelled from the spec: [scenario.add_par(par_name, rows)] merges rows
    into a parameter table of the store. *)
Definition add_par (sc : Scenario) (par_name : string) (rows : list row)
  : Scenario :=
  mkScenario (set_names sc) (set_data sc)
    (add_rows par_name rows (par_data sc))
    (units sc) (has_solution sc) (checked_out sc) (commits sc).

(** Modelled from the spec: [add_par_data] of [message_data.tools] is not
    part of the sources.  Given a mapping of parameter name to rows, it merges
    those rows into the corresponding parameter tables; nothing is mutated
    when [dry_run] is true. *)
Definition add_par_data (sc : Scenario) (data : list (string * list row))
    (dry_run : bool) : Scenario :=
  if dry_run then sc
  else foldl (λ sc' t, add_par sc' t.1 t.2) sc data.

(** The callable [data]: it receives the scenario and [dry_run], may
    manipulate the scenario directly, and returns [None] or a mapping from
    parameter name to rows. *)
Definition callback : Type :=
  Scenario → bool → Scenario * option (list (string * list row)).

(** Truth value of the result of [data]: [None] and the empty mapping are
    false. *)
Definition truthy (result : option (list (string * list row))) : bool :=
  match result with
  | Some (_ :: _) => true
  | _ => false
  end.

(** ** Logging *)

Inductive level := DEBUG | INFO | ERROR.

(** The numeric values of the levels in [logging]. *)
Definition levelno (l : level) : nat :=
  match l with DEBUG => 10 | INFO => 20 | ERROR => 40 end.

(** A log record: the format of the message and the values formatted into
    it. *)
Inductive log_message :=
| msg_set (set_name : string)        (* f"Set {repr(set_name)}" *)
| msg_elements (n : nat)             (* f"  {len(base)} elements" *)
| msg_not_found (e : element)        (* f"  {repr(element)} not found" *)
| msg_check (n : nat)                (* f"  Check {len(require)} required elements" *)
| msg_skip_values                    (* "  Skip removing parameter values" *)
| msg_skip (e : element)             (* f"  Skip removing {msg} (fast=True)" *)
| msg_remove (e : element)           (* f"  Remove {msg}" *)
| msg_add (n : nat)                  (* f"  Add {len(add)} element(s)" *)
| msg_add_list (l : list element)    (* "  " + ", ".join(map(repr, add)) *)
| msg_rule                           (* "  ---" *)
| msg_removed (n : nat)              (* f"{N_removed} parameter elements removed" *)
| msg_add_unit (unit : string)       (* f"Add unit {repr(unit.id)}" *)
| msg_commit.                        (* "Commit results." *)

(** ** State, exceptions and the loop *)

(** The calls [apply_spec] makes on its collaborators, in the order in which
    it makes them. *)
Inductive call :=
| remove_solution_call
| maybe_check_out_call
| set_list_call
| set_call (set_name : string)
| strip_par_data_call (set_name : string) (value : element) (dry_run : bool)
| add_set_call (set_name : string) (key : string)
| add_unit_call (unit comment : string)
| data_call (dry_run : bool)
| add_par_data_call (data : list (string * list row)) (dry_run : bool)
| commit_call (msg : string).

(** What a call of [apply_spec] works on: the scenario, mutated in place; the
    local dictionary [dump]; the records emitted to the log; and the trace of
    the calls made so far. *)
Record state := mkState {
  store : Scenario;
  dump : gmap string (list row);
  log : list (level * log_message);
  calls : list call }.

Definition M (A : Type) : Type := state → state * outcome A.

#[global] Instance M_ret : MRet M := λ A a st, (st, Return a).

#[global] Instance M_bind : MBind M := λ A B k m st,
  match m st with
  | (st', Return a) => k a st'
  | (st', Raise e) => (st', Raise e)
  end.

Definition raise {A : Type} (e : exception) : M A := λ st, (st, Raise e).

(** [try: m except ValueError: pass] *)
Definition except_ValueError_pass (m : M unit) : M unit := λ st,
  match m st with
  | (st', Return a) => (st', Return a)
  | (st', Raise (ValueError _)) => (st', Return tt)
  end.

(** A call that reads the scenario. *)
Definition read {A : Type} (c : call) (f : Scenario → A) : M A := λ st,
  (mkState (store st) (dump st) (log st) (calls st ++ [c]),
   Return (f (store st))).

(** A call that mutates the scenario. *)
Definition on_store (c : call) (f : Scenario → Scenario) : M unit := λ st,
  (mkState (f (store st)) (dump st) (log st) (calls st ++ [c]), Return tt).

(** A call that mutates the scenario and may raise. *)
Definition try_store (c : call) (f : Scenario → Scenario * outcome unit)
  : M unit := λ st,
  let r := f (store st) in
  (mkState r.1 (dump st) (log st) (calls st ++ [c]), r.2).

(** [for x in l: body(x)] *)
Fixpoint for_each {A : Type} (l : list A) (body : A → M unit) : M unit :=
  match l with
  | [] => mret tt
  | x :: l' => body x ;; for_each l' body
  end.

(** [log.setLevel(logging.ERROR if options.get('quiet', False) else
    logging.DEBUG)] (build.py:57). *)
Definition setLevel (opts : options) : level :=
  if quiet opts then ERROR else DEBUG.

(** [log.log(lvl, msg)]: the record is emitted when its level is at least
    the level of the logger. *)
Definition emit (opts : options) (lvl : level) (msg : log_message) : M unit :=
  λ st,
  (if (levelno (setLevel opts) <=? levelno lvl)%nat
   then mkState (store st) (dump st) (log st ++ [(lvl, msg)]) (calls st)
   else st,
   Return tt).

(** ** apply_spec *)

(** [sum(map(lambda info: len(info.set[set_name]), spec.values()))]
    (build.py:72). *)
Definition check (spec : Spec) (set_name : string) : nat :=
  sum_list ((λ info, length (set_at info set_name)) <$> values spec).

(** [sum(len(d) for d in dump.values())] (build.py:130). *)
Definition N_removed (dump : gmap string (list row)) : nat :=
  sum_list ((λ d, length d.2) <$> map_to_list dump).

(** The call of [strip_par_data] with the local [dump] (build.py:107-113). *)
Definition strip (set_name : string) (value : element) (dry_run : bool)
  : M unit := λ st,
  let r := strip_par_data (store st) set_name value dry_run (dump st) in
  (mkState r.1 r.2 (log st)
     (calls st ++ [strip_par_data_call set_name value dry_run]),
   Return tt).

(** The loop over the required elements (build.py:89-92). *)
Definition check_required (opts : options) (require base : list element)
  : M unit :=
  for_each require (λ element,
    if bool_decide (element ∈ base) then mret tt
    else emit opts ERROR (msg_not_found element);;
         raise (ValueError [])).

(** The body of the loop over [scenario.set_list()] (build.py:71-128). *)
Definition process_set (spec : Spec) (opts : options) (set_name : string)
  : M unit :=
  (* Check whether this set is mentioned at all in the spec *)
  if (check spec set_name =? 0)%nat then mret tt (* continue *)
  else
    (* Base contents of the set *)
    base ← read (set_call set_name) (λ sc, scenario.set sc set_name);
    emit opts INFO (msg_set set_name);;
    emit opts INFO (msg_elements (length base));;
    (* Check for required elements *)
    let require := set_at (require spec) set_name in
    check_required opts require base;;
    (if (length require =? 0)%nat then mret tt
     else emit opts INFO (msg_check (length require)));;
    (if fast opts then emit opts INFO msg_skip_values
     else
       (* Remove elements and associated parameter values *)
       let remove := set_at (remove spec) set_name in
       for_each remove (λ element,
         if fast opts then emit opts INFO (msg_skip element)
         else emit opts INFO (msg_remove element);;
              strip set_name element (dry_run opts)));;
    (* Add elements *)
    let add := set_at (add spec) set_name in
    (if negb (dry_run opts) then
       for_each add (λ element,
         on_store (add_set_call set_name (effective_id element))
           (λ sc, scenario.add_set sc set_name (effective_id element)))
     else mret tt);;
    (if (length add =? 0)%nat then mret tt
     else emit opts INFO (msg_add (length add));;
          emit opts DEBUG (msg_add_list add));;
    emit opts INFO msg_rule.

(** The call of [data] and of [add_par_data] on its result
    (build.py:140-143). *)
Definition add_data (data : option callback) (dry_run : bool) : M unit :=
  match data with
  | Some f =>
      result ← (λ st, let r := f (store st) dry_run in
                      (mkState r.1 (dump st) (log st)
                         (calls st ++ [data_call dry_run]),
                       Return r.2));
      if truthy result
      then on_store (add_par_data_call (default [] result) dry_run)
             (λ sc, add_par_data sc (default [] result) dry_run)
      else mret tt
  | None => mret tt
  end.

(** The steps before the loop (build.py:61-66). *)
Definition prepare (opts : options) : M unit :=
  if negb (dry_run opts) then
    except_ValueError_pass
      (try_store remove_solution_call scenario.remove_solution);;
    on_store maybe_check_out_call scenario.maybe_check_out
  else mret tt.

(** The loop over the units (build.py:134-137). *)
Definition add_units (spec : Spec) (opts : options) : M unit :=
  for_each (set_at (add spec) "unit") (λ unit,
    let unit := ensure_Code unit in
    emit opts INFO (msg_add_unit (id unit));;
    on_store (add_unit_call (id unit) (name unit))
      (λ sc, scenario.add_unit sc (id unit) (name unit))).

(** The steps from the loop over the sets on (build.py:68-148). *)
Definition migrate (spec : Spec) (data : option callback) (opts : options)
  : M unit :=
  set_list ← read set_list_call scenario.set_list;
  for_each set_list (process_set spec opts);;
  n ← (λ st, (st, Return (N_removed (dump st))));
  emit opts INFO (msg_removed n);;
  (* Add units *)
  add_units spec opts;;
  (* Add data *)
  add_data data (dry_run opts);;
  (* Finalize *)
  emit opts INFO msg_commit;;
  if negb (dry_run opts) then
    on_store (commit_call (default default_message (message opts)))
      (λ sc, scenario.commit sc (default default_message (message opts)))
  else mret tt.

(** [apply_spec(scenario, spec, data, **options)].  The function returns
    nothing; the result here is the state it leaves behind (the scenario as
    mutated, the ledger [dump], the log records and the calls made) and
    whether it returned or raised. *)
Definition apply_spec (sc : Scenario) (spec : Spec) (data : option callback)
    (opts : options) : state * outcome unit :=
  (prepare opts;; migrate spec data opts) (mkState sc ∅ [] []).

(** * Definitions used to state the properties *)

(** ** The loops in closed form *)

(** The record a call of [emit] adds to the log, if any. *)
Definition emitted (opts : options) (lvl : level) (msg : log_message)
  : list (level * log_message) :=
  if (levelno (setLevel opts) <=? levelno lvl)%nat then [(lvl, msg)] else [].

(** The first required element that the base contents lack. *)
Definition missing (require base : list element) : option element :=
  head (filter (λ e, e ∉ base) require).

(** The store and ledger after [strip_par_data] for each element of [l]. *)
Definition strip_all (set_name : string) (dry_run : bool) (l : list element)
    (p : Scenario * gmap string (list row))
  : Scenario * gmap string (list row) :=
  foldl (λ p e, strip_par_data p.1 set_name e dry_run p.2) p l.

(** The store after [add_set] for each element of [l]. *)
Definition add_all (set_name : string) (l : list element) (sc : Scenario)
  : Scenario :=
  foldl (λ sc e, scenario.add_set sc set_name (effective_id e)) sc l.

(** What processing one set does to the store and the ledger when no
    required element is missing. *)
Definition set_effect (spec : Spec) (opts : options) (set_name : string)
    (p : Scenario * gmap string (list row))
  : Scenario * gmap string (list row) :=
  let p' := if fast opts then p
            else strip_all set_name (dry_run opts)
                   (set_at (remove spec) set_name) p in
  (if dry_run opts then p'.1
   else add_all set_name (set_at (add spec) set_name) p'.1,
   p'.2).

(** The records logged for a set until its required elements are checked. *)
Definition set_log_head (opts : options) (set_name : string)
    (base : list element) : list (level * log_message) :=
  emitted opts INFO (msg_set set_name)
  ++ emitted opts INFO (msg_elements (length base)).

(** The records logged for a set once its required elements are found. *)
Definition set_log_tail (spec : Spec) (opts : options) (set_name : string)
  : list (level * log_message) :=
  (if (length (set_at (require spec) set_name) =? 0)%nat then []
   else emitted opts INFO
          (msg_check (length (set_at (require spec) set_name))))
  ++ (if fast opts then emitted opts INFO msg_skip_values
      else flat_map (λ e, emitted opts INFO (msg_remove e))
             (set_at (remove spec) set_name))
  ++ (if (length (set_at (add spec) set_name) =? 0)%nat then []
      else emitted opts INFO (msg_add (length (set_at (add spec) set_name)))
           ++ emitted opts DEBUG (msg_add_list (set_at (add spec) set_name)))
  ++ emitted opts INFO msg_rule.

(** The calls made for a set whose required elements are found. *)
Definition set_calls (spec : Spec) (opts : options) (set_name : string)
  : list call :=
  set_call set_name
  :: (if fast opts then []
      else (λ e, strip_par_data_call set_name e (dry_run opts))
             <$> set_at (remove spec) set_name)
  ++ (if dry_run opts then []
      else (λ e, add_set_call set_name (effective_id e))
             <$> set_at (add spec) set_name).

(** The store after the steps before the loop. *)
Definition prepared (opts : options) (sc : Scenario) : Scenario :=
  if dry_run opts then sc
  else scenario.maybe_check_out (scenario.remove_solution sc).1.

Definition prepare_calls (opts : options) : list call :=
  if dry_run opts then [] else [remove_solution_call; maybe_check_out_call].

(** The store after [add_unit] for each entry of [l]. *)
Definition register_all (l : list element) (sc : Scenario) : Scenario :=
  foldl (λ sc u,
    scenario.add_unit sc (id (ensure_Code u)) (name (ensure_Code u))) sc l.

(** The store after the call of [data] and the merge of its result. *)
Definition data_effect (data : option callback) (dry : bool) (sc : Scenario)
  : Scenario :=
  match data with
  | Some f =>
      if truthy (f sc dry).2
      then add_par_data (f sc dry).1 (default [] (f sc dry).2) dry
      else (f sc dry).1
  | None => sc
  end.

Definition data_calls (data : option callback) (dry : bool) (sc : Scenario)
  : list call :=
  match data with
  | Some f =>
      data_call dry
      :: (if truthy (f sc dry).2
          then [add_par_data_call (default [] (f sc dry).2) dry] else [])
  | None => []
  end.

(** The store after the steps that follow the loop over the sets. *)
Definition completed (spec : Spec) (data : option callback) (opts : options)
    (sc : Scenario) : Scenario :=
  let sc' := data_effect data (dry_run opts)
               (register_all (set_at (add spec) "unit") sc) in
  if dry_run opts then sc'
  else scenario.commit sc' (default default_message (message opts)).

Definition completed_log (spec : Spec) (opts : options)
    (d : gmap string (list row)) : list (level * log_message) :=
  emitted opts INFO (msg_removed (N_removed d))
  ++ flat_map (λ u, emitted opts INFO (msg_add_unit (id (ensure_Code u))))
       (set_at (add spec) "unit")
  ++ emitted opts INFO msg_commit.

Definition completed_calls (spec : Spec) (data : option callback)
    (opts : options) (sc : Scenario) : list call :=
  ((λ u, add_unit_call (id (ensure_Code u)) (name (ensure_Code u)))
     <$> set_at (add spec) "unit")
  ++ data_calls data (dry_run opts)
       (register_all (set_at (add spec) "unit") sc)
  ++ (if dry_run opts then []
      else [commit_call (default default_message (message opts))]).

(** ** What the steps leave alone *)

(** [sc'] differs from [sc] at most in the contents of its sets and in its
    parameter tables. *)
Definition same_registry (sc sc' : Scenario) : Prop :=
  set_names sc' = set_names sc ∧ units sc' = units sc
  ∧ has_solution sc' = has_solution sc ∧ checked_out sc' = checked_out sc
  ∧ commits sc' = commits sc.

(** ** The loop over the sets *)

(** The set [set_name] of the store has every element required of it. *)
Definition satisfied (spec : Spec) (sc : Scenario) (set_name : string) : Prop :=
  missing (set_at (require spec) set_name) (scenario.set sc set_name) = None.

#[global] Instance satisfied_dec spec sc set_name :
  Decision (satisfied spec sc set_name).
Proof. unfold satisfied. apply _. Defined.

(** The store and the ledger after the loop has processed the sets [l]. *)
Definition sets_effect (spec : Spec) (opts : options) (l : list string)
    (p : Scenario * gmap string (list row))
  : Scenario * gmap string (list row) :=
  foldl (λ p set_name, set_effect spec opts set_name p) p l.

(** ** The whole call *)

(** Every set of the store has the elements that the spec requires of it. *)
Definition requirements_met (spec : Spec) (sc : Scenario) : Prop :=
  ∀ S e,
    S ∈ scenario.set_list sc → e ∈ set_at (require spec) S →
    e ∈ scenario.set sc S.

(** The entries that [add_unit] makes for the units [l]. *)
Definition unit_entries (l : list element) : list (string * string) :=
  (λ u, (id (ensure_Code u), name (ensure_Code u))) <$> l.

(** ** Stores and specifications used as examples *)

Definition no_info : ScenarioInfo := mkInfo ∅.

(** A store whose set [technology] holds [coal_ppl], without parameter
    rows. *)
Definition coal_store : Scenario :=
  mkScenario ["technology"] {["technology" := [Ident "coal_ppl"]]}
    [] [] false false [].

(** [require = {}], [remove = {}], [add = {technology: ["gas_ppl"]}] *)
Definition add_gas : Spec :=
  mkSpec no_info no_info (mkInfo {["technology" := [Ident "gas_ppl"]]}).

(** [require = {technology: ["gas_ppl"]}] *)
Definition require_gas : Spec :=
  mkSpec (mkInfo {["technology" := [Ident "gas_ppl"]]}) no_info no_info.

(** ** Missing required elements *)

(** The exception carries the name of the set and the identifier of the
    element: both are among its arguments. *)
Definition carries (x : exception) (set_name : string) (e : element) : Prop :=
  match x with
  | ValueError args => set_name ∈ args ∧ effective_id e ∈ args
  end.

(** ** Dry runs *)

(** [require = {}], [remove = {}], [add = {unit: ["kg_CO2"]}] *)
Definition add_kg_CO2 : Spec :=
  mkSpec no_info no_info (mkInfo {["unit" := [Ident "kg_CO2"]]}).

Definition dry : options := mkOptions true false false None.

(** The callable [data], if there is one, leaves the store as it is when
    [dry_run] is true. *)
Definition respects_dry_run (data : option callback) : Prop :=
  ∀ f, data = Some f → ∀ sc, (f sc true).1 = sc.

(** ** Units *)

(** The callable [data], if there is one, leaves the unit registry as it
    is. *)
Definition keeps_units (data : option callback) : Prop :=
  ∀ f, data = Some f → ∀ sc b, units (f sc b).1 = units sc.

(** [require = {technology: ["gas_ppl"]}], [add = {unit: ["kg_CO2"]}] *)
Definition require_gas_add_kg_CO2 : Spec :=
  mkSpec (mkInfo {["technology" := [Ident "gas_ppl"]]}) no_info
    (mkInfo {["unit" := [Ident "kg_CO2"]]}).

(** [add = {unit: ["kg_CO2", Code(id="kg_CO2", name="kilograms of CO2")]}] *)
Definition add_two_units : Spec :=
  mkSpec no_info no_info
    (mkInfo {["unit" := [Ident "kg_CO2";
                         Described (mkCode "kg_CO2" "kilograms of CO2")]]}).

(** ** Abort on the first missing element *)

(** A store with the sets [commodity] and [technology]. *)
Definition two_sets : Scenario :=
  mkScenario ["commodity"; "technology"]
    {["commodity" := [Ident "coal"]; "technology" := [Ident "coal_ppl"]]}
    [] [] false false [].

(** [require = {technology: ["gas_ppl"]}],
    [add = {commodity: ["steel"], technology: ["steel_plant"]}] *)
Definition add_steel_require_gas : Spec :=
  mkSpec (mkInfo {["technology" := [Ident "gas_ppl"]]}) no_info
    (mkInfo {["commodity" := [Ident "steel"];
              "technology" := [Ident "steel_plant"]]}).

(** ** Removal of parameter data *)



(** A row that references the technology [coal_ppl], and one that does
    not. *)
Definition coal_row : row :=
  mkRow [("technology", Ident "coal_ppl"); ("commodity", Ident "electr")] 1.

Definition wind_row : row :=
  mkRow [("technology", Ident "wind_ppl"); ("commodity", Ident "electr")] 2.

(** A store whose table [output] holds both rows. *)
Definition store_with_rows : Scenario :=
  mkScenario ["commodity"; "technology"]
    {["commodity" := [Ident "electr"];
      "technology" := [Ident "coal_ppl"; Ident "wind_ppl"]]}
    [("output", [coal_row; wind_row])] [] false false [].

(** [remove = {technology: ["coal_ppl"]}] *)
Definition remove_coal : Spec :=
  mkSpec no_info (mkInfo {["technology" := [Ident "coal_ppl"]]}) no_info.






(** ** Fast calls *)

(** Whether a call is a call of [strip_par_data]. *)
Definition is_strip (c : call) : bool :=
  match c with
  | strip_par_data_call _ _ _ => true
  | _ => false
  end.

(** The table of the parameter [par_name] of the store holds the row [r]. *)
Definition has_row (sc : Scenario) (par_name : string) (r : row) : Prop :=
  ∃ rows, (par_name, rows) ∈ par_data sc ∧ r ∈ rows.

(** The callable [data], if there is one, leaves the rows of the store in
    their tables. *)
Definition keeps_rows (data : option callback) : Prop :=
  ∀ f, data = Some f →
       ∀ sc b par_name r, has_row sc par_name r → has_row (f sc b).1 par_name r.

(** ** Addition of elements *)

(** The callable [data], if there is one, leaves the contents of the sets as
    they are. *)
Definition keeps_sets (data : option callback) : Prop :=
  ∀ f, data = Some f → ∀ sc b, set_data (f sc b).1 = set_data sc.


(** ** Set names that the store does not know *)


(** The set that a call on the store reads or mutates, if any. *)
Definition call_set (c : call) : option string :=
  match c with
  | set_call s | strip_par_data_call s _ _ | add_set_call s _ => Some s
  | _ => None
  end.



(** ** Comparison of required elements *)

(** [require = {technology: [Code(id="coal_ppl", name="coal_ppl")]}] *)
Definition require_coal_Code : Spec :=
  mkSpec (mkInfo {["technology" := [Described (mkCode "coal_ppl" "coal_ppl")]]})
    no_info no_info.

(** ** Kinds of log records and of calls *)

(** A record of the progress of the call: one that is not an error, and that
    the level of the logger lets through. *)
Definition routine (opts : options) (r : level * log_message) : Prop :=
  r.1 ≠ ERROR ∧ (levelno (setLevel opts) ≤ levelno r.1)%nat.

(** Whether a call is one of those that [apply_spec] makes after the loop
    over the sets: the registration of a unit, the call of [data], the merge
    of its result, the commit. *)
Definition after_loop (c : call) : bool :=
  match c with
  | add_unit_call _ _ | data_call _ | add_par_data_call _ _ | commit_call _ =>
      true
  | _ => false
  end.

(** The scenario [sc] with the unit registry [us]. *)
Definition with_units (us : list (string * string)) (sc : Scenario)
  : Scenario :=
  mkScenario (set_names sc) (set_data sc) (par_data sc) us (has_solution sc)
    (checked_out sc) (commits sc).

(** * Other functions of the repository *)

(** ** data_ammonia.py: [set_trade_tec] *)

(** [sub in s] on strings: [sub] occurs in [s]. *)
Fixpoint str_in (sub s : string) : bool :=
  match s with
  | EmptyString => String.prefix sub EmptyString
  | String c s' => String.prefix sub s || str_in sub s'
  end.

(** The body of the loop of [set_trade_tec] (data_ammonia.py:634-639): three
    tests in a row, none of them an [elif]. *)
Definition set_trade_tec_step (arr : list string) (i : string) : list string :=
  let arr := if str_in "Import" i then arr ++ ["import_NFert"] else arr in
  let arr := if str_in "Export" i then arr ++ ["export_NFert"] else arr in
  if str_in "Trade" i then arr ++ ["trade_NFert"] else arr.

(** [set_trade_tec(x)] (data_ammonia.py:631-640). *)
Definition set_trade_tec (x : list string) : list string :=
  foldl set_trade_tec_step [] x.

(** The names appended for one entry. *)
Definition trade_tecs (i : string) : list string :=
  (if str_in "Import" i then ["import_NFert"] else [])
  ++ (if str_in "Export" i then ["export_NFert"] else [])
  ++ (if str_in "Trade" i then ["trade_NFert"] else []).

(** ** plot.py: [LabelFirst] *)

(** The attributes of a [LabelFirst] (plot.py:33-35). *)
Record LabelFirst := mkLabelFirst { fmt_string : string; first : bool }.

(** [LabelFirst(fmt_string)] *)
Definition LabelFirst_init (fmt_string : string) : LabelFirst :=
  mkLabelFirst fmt_string true.

(** [LabelFirst.__call__] (plot.py:37-40), for values of a type [V];
    [format fmt value] stands for [fmt.format(value)].  The result is a
    string when the value is formatted and the value itself otherwise. *)
Definition LabelFirst_call {V : Type} (format : string → V → string)
    (self : LabelFirst) (value : V) : LabelFirst * (string + V) :=
  let first := first self in
  (mkLabelFirst (fmt_string self) false,
   if first then inl (format (fmt_string self) value) else inr value).

(** The labels of a sequence of values, labelled one after the other by the
    same labeller. *)
Fixpoint label_all {V : Type} (format : string → V → string)
    (self : LabelFirst) (values : list V) : LabelFirst * list (string + V) :=
  match values with
  | [] => (self, [])
  | value :: values' =>
      let r := LabelFirst_call format self value in
      let r' := label_all format r.1 values' in
      (r'.1, r.2 :: r'.2)
  end.

(** ** computations.py: [as_quantity] and [ldv_distance] *)

(** [KeyError(key)], raised by [dict.pop] and by subscription. *)
Inductive KeyError := mkKeyError (key : string).

(** A [Quantity]: its name, the name of its dimension, its units and its
    data, for values of a type [V]. *)
Record Quantity (V : Type) := mkQuantity {
  q_name : option string;
  q_dim : V;
  q_units : V;
  q_data : gmap string V }.
Arguments mkQuantity {V} q_name q_dim q_units q_data.
Arguments q_name {V} q.
Arguments q_dim {V} q.
Arguments q_units {V} q.
Arguments q_data {V} q.

(** [info.pop(key)]: the dictionary without the key and its value, or the
    dictionary as it is and a [KeyError]. *)
Definition dict_pop {V : Type} (key : string) (info : gmap string V)
  : gmap string V * (V + KeyError) :=
  match info !! key with
  | Some v => (delete key info, inl v)
  | None => (info, inr (mkKeyError key))
  end.

(** [as_quantity(info)] (computations.py:15-19).  The dictionary is mutated
    in place: the result comes with the dictionary as the call leaves it. *)
Definition as_quantity {V : Type} (info : gmap string V)
  : gmap string V * (Quantity V + KeyError) :=
  match dict_pop "_dim" info with
  | (info, inr e) => (info, inr e)
  | (info, inl dim) =>
      match dict_pop "_unit" info with
      | (info, inr e) => (info, inr e)
      | (info, inl unit) => (info, inl (mkQuantity None dim unit info))
      end
  end.

(** The two dictionaries of [config] that [ldv_distance] reads:
    [config["ldv activity"]] and [config["factor"]["activity"]["ldv"]]. *)
Record ldv_config (V : Type) := mkLdvConfig {
  ldv_activity : gmap string V;
  factor_activity_ldv : gmap string V }.
Arguments mkLdvConfig {V} ldv_activity factor_activity_ldv.
Arguments ldv_activity {V} l.
Arguments factor_activity_ldv {V} l.

(** [ldv_distance(config)] (computations.py:34-49); [product] stands for
    [genno.computations.product].  The arguments are evaluated from left to
    right, and the dictionaries of [config] are mutated in place. *)
Definition ldv_distance {V : Type}
    (product : Quantity V → Quantity V → Quantity V) (config : ldv_config V)
  : ldv_config V * (Quantity V + KeyError) :=
  match as_quantity (ldv_activity config) with
  | (info1, inr e) => (mkLdvConfig info1 (factor_activity_ldv config), inr e)
  | (info1, inl q1) =>
      match as_quantity (factor_activity_ldv config) with
      | (info2, inr e) => (mkLdvConfig info1 info2, inr e)
      | (info2, inl q2) =>
          let result := product q1 q2 in
          (mkLdvConfig info1 info2,
           inl (mkQuantity (Some "ldv distance") (q_dim result)
                  (q_units result) (q_data result)))
      end
  end.

(** ** eei.py: the names of the sheets *)

(** The characters of the class [[ -]]. *)
Definition is_sep (c : Ascii.ascii) : bool :=
  bool_decide (c = Ascii.ascii_of_nat 32) (* space *)
  || bool_decide (c = Ascii.ascii_of_nat 45) (* hyphen *).

(** The text before the first space or hyphen of a string, and the text
    after it. *)
Fixpoint split_at_sep (s : string) : option (string * string) :=
  match s with
  | EmptyString => None
  | String c s' =>
      if is_sep c then Some (EmptyString, s')
      else match split_at_sep s' with
           | Some (a, b) => Some (String c a, b)
           | None => None
           end
  end.

(** No character of the string is a line feed, the one character that [.]
    does not match. *)
Fixpoint no_newline (s : string) : bool :=
  match s with
  | EmptyString => true
  | String c s' =>
      negb (bool_decide (c = Ascii.ascii_of_nat 10)) && no_newline s'
  end.

(** [SECTOR_MEASURE_EXPR.fullmatch(sheet_name)] followed by
    [match.groups()] (eei.py:155, 198-203), for the expression
    [(?P<SECTOR>[^ -]+)[ -](?P<MEASURE0>.+)]. *)
Definition SECTOR_MEASURE_fullmatch (sheet_name : string)
  : option (string * string) :=
  match split_at_sep sheet_name with
  | Some (s, m) =>
      if negb (bool_decide (s = "")) && negb (bool_decide (m = ""))
         && no_newline m
      then Some (s, m) else None
  | None => None
  end.

(** What the expression says: [sheet_name] is [s], one character of [[ -]],
    and [m], where [s] is not empty and has no character of [[ -]], and [m]
    is not empty and has no line feed. *)
Definition SECTOR_MEASURE_matches (sheet_name s m : string) : Prop :=
  ∃ c, sheet_name = s +:+ String c m ∧ is_sep c = true
       ∧ s ≠ "" ∧ split_at_sep s = None
       ∧ m ≠ "" ∧ no_newline m = true.

(** [str.lower()] as it acts on a string of ASCII characters: the letters A
    to Z become a to z and every other character is kept.  On other strings
    [str.lower()] follows the Unicode case mappings, which are not modelled:
    [sheet_assign] takes the method as a parameter, and this function stands
    for it in examples with ASCII sheet names only. *)
Definition ascii_lower_char (c : Ascii.ascii) : Ascii.ascii :=
  let n := Ascii.nat_of_ascii c in
  if (65 <=? n)%nat && (n <=? 90)%nat then Ascii.ascii_of_nat (n + 32) else c.

Fixpoint ascii_lower (s : string) : string :=
  match s with
  | EmptyString => EmptyString
  | String c s' => String (ascii_lower_char c) (ascii_lower s')
  end.

(** The dictionary [assign] that [iea_eei_data_raw] builds for a sheet
    (eei.py:211-223), or [None] when the sheet is passed over.  The method
    [str.lower] of the two groups is the parameter [lower]. *)
Definition sheet_assign (lower : string → string) (sheet_name : string)
  : option (list (string * string)) :=
  match SECTOR_MEASURE_fullmatch sheet_name with
  | None => None (* continue *)
  | Some (s, m) =>
      Some ((if bool_decide (s ∈ ["Activity"]) then []
             else [("SECTOR", lower s)])
            ++ (if bool_decide (m ∈ ["Energy"; "Emissions"])
                then [("MEASURE", lower m)] else []))
  end.

(** * Properties *)

(** ** The loops in closed form *)

Lemma bind_eq {A B : Type} (m : M A) (k : A → M B) (st : state) :
  (m ≫= k) st =
  match m st with
  | (st', Return a) => k a st'
  | (st', Raise e) => (st', Raise e)
  end.
Proof. reflexivity. Qed.

Lemma ret_eq {A : Type} (a : A) (st : state) :
  (mret a : M A) st = (st, Return a).
Proof. reflexivity. Qed.

Lemma emit_eq opts lvl msg st :
  emit opts lvl msg st =
  (mkState (store st) (dump st) (log st ++ emitted opts lvl msg) (calls st),
   Return tt).
Proof.
  unfold emit, emitted. destruct st as [sc d lg cs]; simpl.
  destruct (levelno (setLevel opts) <=? levelno lvl)%nat; [done|].
  by rewrite app_nil_r.
Qed.

Lemma check_required_eq opts require base st :
  check_required opts require base st =
  match missing require base with
  | None => (st, Return tt)
  | Some e =>
      (mkState (store st) (dump st)
         (log st ++ emitted opts ERROR (msg_not_found e)) (calls st),
       Raise (ValueError []))
  end.
Proof.
  unfold check_required, missing.
  induction require as [|e require IH]; simpl; [done|].
  rewrite bind_eq, filter_cons.
  destruct (decide (e ∉ base)) as [Hn|Hin].
  - rewrite bool_decide_eq_false_2 by done.
    rewrite bind_eq, emit_eq. done.
  - apply dec_stable in Hin.
    rewrite bool_decide_eq_true_2 by done.
    rewrite ret_eq. apply IH.
Qed.

Lemma missing_None require base :
  missing require base = None ↔ ∀ e, e ∈ require → e ∈ base.
Proof.
  unfold missing. rewrite head_None. split.
  - intros Hf e He. destruct (decide (e ∈ base)) as [|Hn]; [done|].
    assert (e ∈ filter (λ e, e ∉ base) require) as Hin
      by (apply list_elem_of_filter; done).
    rewrite Hf in Hin. by apply elem_of_nil in Hin.
  - intros Hall.
    destruct (filter (λ e, e ∉ base) require) as [|e l] eqn:Hf; [done|].
    assert (e ∈ filter (λ e, e ∉ base) require) as Hin
      by (rewrite Hf; apply elem_of_cons; by left).
    apply list_elem_of_filter in Hin as [Hn He]. destruct Hn. by apply Hall.
Qed.

Lemma missing_Some require base e :
  missing require base = Some e → e ∈ require ∧ e ∉ base.
Proof.
  unfold missing. intros Hh. apply head_Some_elem_of in Hh.
  by apply list_elem_of_filter in Hh as [? ?].
Qed.

Lemma strip_loop_eq opts (dry : bool) set_name l st :
  for_each l (λ element,
    emit opts INFO (msg_remove element);;
    strip set_name element dry) st =
  (mkState
     (strip_all set_name dry l (store st, dump st)).1
     (strip_all set_name dry l (store st, dump st)).2
     (log st ++ flat_map (λ e, emitted opts INFO (msg_remove e)) l)
     (calls st ++ ((λ e, strip_par_data_call set_name e dry) <$> l)),
   Return tt).
Proof.
  unfold strip_all. revert st.
  induction l as [|e l IH]; intros [sc d lg cs]; simpl.
  - by rewrite ret_eq, !app_nil_r.
  - rewrite !bind_eq, emit_eq. unfold strip at 1. simpl.
    rewrite IH. simpl. by rewrite <-!app_assoc.
Qed.

Lemma add_loop_eq set_name l st :
  for_each l (λ element,
    on_store (add_set_call set_name (effective_id element))
      (λ sc, scenario.add_set sc set_name (effective_id element))) st =
  (mkState (add_all set_name l (store st)) (dump st) (log st)
     (calls st ++ ((λ e, add_set_call set_name (effective_id e)) <$> l)),
   Return tt).
Proof.
  unfold add_all. revert st.
  induction l as [|e l IH]; intros [sc d lg cs]; simpl.
  - by rewrite ret_eq, !app_nil_r.
  - rewrite bind_eq. unfold on_store at 1. simpl.
    rewrite IH. simpl. by rewrite <-!app_assoc.
Qed.

Ltac run_step :=
  first [ rewrite bind_eq | rewrite emit_eq | rewrite ret_eq
        | rewrite check_required_eq | rewrite add_loop_eq
        | rewrite strip_loop_eq
        | progress cbn [store dump log calls fst snd negb] ].

(** One turn of the loop over the sets, in closed form. *)
Lemma process_set_eq spec opts set_name st :
  process_set spec opts set_name st =
  if (check spec set_name =? 0)%nat then (st, Return tt)
  else
    let base := scenario.set (store st) set_name in
    match missing (set_at (require spec) set_name) base with
    | Some e =>
        (mkState (store st) (dump st)
           (log st ++ set_log_head opts set_name base
              ++ emitted opts ERROR (msg_not_found e))
           (calls st ++ [set_call set_name]),
         Raise (ValueError []))
    | None =>
        (mkState
           (set_effect spec opts set_name (store st, dump st)).1
           (set_effect spec opts set_name (store st, dump st)).2
           (log st ++ set_log_head opts set_name base
              ++ set_log_tail spec opts set_name)
           (calls st ++ set_calls spec opts set_name),
         Return tt)
    end.
Proof.
  unfold process_set.
  destruct (check spec set_name =? 0)%nat; [done|].
  destruct st as [sc d lg cs]. cbn zeta.
  rewrite bind_eq. unfold read at 1.
  unfold set_log_head, set_effect, set_log_tail, set_calls.
  cbn [store dump log calls].
  destruct (missing (set_at (require spec) set_name) (scenario.set sc set_name))
    as [e|] eqn:Hm;
    destruct (length (set_at (require spec) set_name) =? 0)%nat;
    destruct (fast opts); destruct (dry_run opts);
    destruct (length (set_at (add spec) set_name) =? 0)%nat;
    repeat (run_step || rewrite Hm);
    rewrite ?app_nil_r, <-?app_assoc; try done.
Qed.

Lemma prepared_eq opts sc :
  prepared opts sc =
  mkScenario (set_names sc) (set_data sc) (par_data sc) (units sc)
    (if dry_run opts then has_solution sc else false)
    (if dry_run opts then checked_out sc else true) (commits sc).
Proof.
  unfold prepared, scenario.maybe_check_out, scenario.remove_solution.
  destruct sc as [? ? ? ? [] [] ?], (dry_run opts); done.
Qed.

Lemma prepare_eq opts st :
  prepare opts st =
  (mkState (prepared opts (store st)) (dump st) (log st)
     (calls st ++ prepare_calls opts),
   Return tt).
Proof.
  unfold prepare, prepared, prepare_calls. destruct st as [sc d lg cs].
  destruct (dry_run opts); simpl.
  - by rewrite ret_eq, app_nil_r.
  - rewrite bind_eq.
    unfold except_ValueError_pass, try_store, scenario.remove_solution.
    simpl. destruct (has_solution sc); simpl;
      unfold on_store; simpl; by rewrite <-app_assoc.
Qed.

Lemma add_units_eq spec opts st :
  add_units spec opts st =
  (mkState (register_all (set_at (add spec) "unit") (store st)) (dump st)
     (log st ++
        flat_map (λ u, emitted opts INFO (msg_add_unit (id (ensure_Code u))))
          (set_at (add spec) "unit"))
     (calls st ++
        ((λ u, add_unit_call (id (ensure_Code u)) (name (ensure_Code u)))
           <$> set_at (add spec) "unit")),
   Return tt).
Proof.
  unfold add_units, register_all. revert st.
  induction (set_at (add spec) "unit") as [|u l IH];
    intros [sc d lg cs]; simpl.
  - by rewrite ret_eq, !app_nil_r.
  - rewrite !bind_eq, emit_eq. unfold on_store at 1. simpl.
    rewrite IH. simpl. by rewrite <-!app_assoc.
Qed.

Lemma add_data_eq data dry st :
  add_data data dry st =
  (mkState (data_effect data dry (store st)) (dump st) (log st)
     (calls st ++ data_calls data dry (store st)),
   Return tt).
Proof.
  unfold add_data, data_effect, data_calls. destruct st as [sc d lg cs].
  destruct data as [f|]; simpl.
  - rewrite bind_eq. simpl. destruct (truthy (f sc dry).2); simpl.
    + unfold on_store. simpl. by rewrite <-app_assoc.
    + by rewrite ret_eq.
  - by rewrite ret_eq, app_nil_r.
Qed.

(** [apply_spec] as the steps before the loop, the loop, and the steps that
    follow it when the loop does not raise. *)
Lemma apply_spec_eq sc spec data opts :
  apply_spec sc spec data opts =
  match for_each (scenario.set_list sc) (process_set spec opts)
          (mkState (prepared opts sc) ∅ []
             (prepare_calls opts ++ [set_list_call])) with
  | (st, Return _) =>
      (mkState (completed spec data opts (store st)) (dump st)
         (log st ++ completed_log spec opts (dump st))
         (calls st ++ completed_calls spec data opts (store st)),
       Return tt)
  | (st, Raise e) => (st, Raise e)
  end.
Proof.
  unfold apply_spec. rewrite bind_eq, prepare_eq. simpl.
  unfold migrate. rewrite bind_eq. unfold read at 1. simpl.
  assert (scenario.set_list (prepared opts sc) = scenario.set_list sc) as ->.
  { by rewrite prepared_eq. }
  rewrite bind_eq.
  destruct (for_each (scenario.set_list sc) (process_set spec opts) _)
    as [[sc1 d1 lg1 cs1] [[]|e]]; [|done].
  unfold completed, completed_log, completed_calls.
  repeat first [ rewrite bind_eq | rewrite emit_eq | rewrite add_units_eq
               | rewrite add_data_eq
               | progress cbn [store dump log calls fst snd] ].
  destruct (dry_run opts); simpl.
  - by rewrite ret_eq, !app_nil_r, <-!app_assoc.
  - unfold on_store. simpl. by rewrite <-!app_assoc.
Qed.

(** ** What the steps leave alone *)

Lemma same_registry_refl sc : same_registry sc sc.
Proof. by repeat split. Qed.

Lemma same_registry_trans sc1 sc2 sc3 :
  same_registry sc1 sc2 → same_registry sc2 sc3 → same_registry sc1 sc3.
Proof.
  unfold same_registry. intros (?&?&?&?&?) (?&?&?&?&?).
  repeat split; congruence.
Qed.

Lemma add_set_set sc set_name key S :
  scenario.set (scenario.add_set sc set_name key) S =
  scenario.set sc S ++ (if decide (S = set_name) then [Ident key] else []).
Proof.
  unfold scenario.set, scenario.add_set; simpl.
  destruct (decide (S = set_name)) as [->|Hne].
  - by rewrite lookup_total_insert_eq.
  - rewrite lookup_total_insert_ne by done. by rewrite app_nil_r.
Qed.

Lemma add_all_set set_name l sc S :
  scenario.set (add_all set_name l sc) S =
  scenario.set sc S ++
  (if decide (S = set_name) then (λ e, Ident (effective_id e)) <$> l else []).
Proof.
  unfold add_all. revert sc. induction l as [|e l IH]; intros sc; simpl.
  - destruct (decide _); by rewrite app_nil_r.
  - rewrite IH, add_set_set. destruct (decide _); rewrite <-app_assoc; done.
Qed.

Lemma add_all_frame set_name l sc :
  same_registry sc (add_all set_name l sc)
  ∧ par_data (add_all set_name l sc) = par_data sc.
Proof.
  unfold add_all. revert sc. induction l as [|e l IH]; intros sc; simpl.
  - split; [apply same_registry_refl|done].
  - destruct (IH (scenario.add_set sc set_name (effective_id e))) as [H1 H2].
    split; [|by rewrite H2].
    eapply same_registry_trans; [|exact H1]. by repeat split.
Qed.

Lemma strip_all_frame set_name dry l p :
  same_registry p.1 (strip_all set_name dry l p).1
  ∧ set_data (strip_all set_name dry l p).1 = set_data p.1.
Proof.
  unfold strip_all. revert p. induction l as [|e l IH]; intros p; simpl.
  - split; [apply same_registry_refl|done].
  - destruct (IH (strip_par_data p.1 set_name e dry p.2)) as [H1 H2].
    split.
    + eapply same_registry_trans; [|exact H1].
      unfold strip_par_data. destruct dry; by repeat split.
    + rewrite H2. unfold strip_par_data. by destruct dry.
Qed.

Lemma strip_all_dry set_name l p : (strip_all set_name true l p).1 = p.1.
Proof.
  unfold strip_all. revert p. induction l as [|e l IH]; intros p; simpl;
    [done|by rewrite IH].
Qed.

Lemma set_effect_frame spec opts set_name p :
  same_registry p.1 (set_effect spec opts set_name p).1.
Proof.
  unfold set_effect. simpl.
  assert (same_registry p.1
    (if fast opts then p
     else strip_all set_name (dry_run opts)
            (set_at (remove spec) set_name) p).1) as H.
  { destruct (fast opts); [apply same_registry_refl|apply strip_all_frame]. }
  destruct (dry_run opts); [done|].
  eapply same_registry_trans; [exact H|apply add_all_frame].
Qed.

Lemma set_effect_set spec opts set_name p S :
  scenario.set (set_effect spec opts set_name p).1 S =
  scenario.set p.1 S ++
  (if decide (S = set_name) then
     if dry_run opts then []
     else (λ e, Ident (effective_id e)) <$> set_at (add spec) set_name
   else []).
Proof.
  unfold set_effect. simpl.
  assert (scenario.set
    (if fast opts then p
     else strip_all set_name (dry_run opts)
            (set_at (remove spec) set_name) p).1 S = scenario.set p.1 S) as H.
  { destruct (fast opts); [done|].
    unfold scenario.set. by rewrite (proj2 (strip_all_frame _ _ _ _)). }
  destruct (dry_run opts).
  - rewrite H. destruct (decide _); by rewrite app_nil_r.
  - by rewrite add_all_set, H.
Qed.

Lemma set_effect_dry spec opts set_name p :
  dry_run opts = true → (set_effect spec opts set_name p).1 = p.1.
Proof.
  unfold set_effect. intros ->. simpl.
  destruct (fast opts); [done|apply strip_all_dry].
Qed.

Lemma set_effect_fast spec opts set_name p :
  fast opts = true →
  par_data (set_effect spec opts set_name p).1 = par_data p.1
  ∧ (set_effect spec opts set_name p).2 = p.2.
Proof.
  unfold set_effect. intros ->. simpl. split; [|done].
  destruct (dry_run opts); [done|apply add_all_frame].
Qed.

(** A set that the spec does not mention is skipped; processing it would
    have changed nothing. *)
Lemma check_0 spec set_name :
  check spec set_name = 0 →
  set_at (require spec) set_name = [] ∧ set_at (remove spec) set_name = []
  ∧ set_at (add spec) set_name = [].
Proof.
  unfold check, values. simpl. intros H.
  repeat split; apply nil_length_inv; lia.
Qed.

Lemma set_effect_unmentioned spec opts set_name p :
  check spec set_name = 0 → set_effect spec opts set_name p = p.
Proof.
  intros (_ & Hr & Ha)%check_0. unfold set_effect. rewrite Hr, Ha. simpl.
  destruct p, (fast opts), (dry_run opts); done.
Qed.

(** ** The loop over the sets *)

Lemma satisfied_iff spec sc set_name :
  satisfied spec sc set_name ↔
  ∀ e, e ∈ set_at (require spec) set_name → e ∈ scenario.set sc set_name.
Proof. apply missing_None. Qed.

Lemma emitted_ERROR opts msg : emitted opts ERROR msg = [(ERROR, msg)].
Proof. unfold emitted, setLevel. by destruct (quiet opts). Qed.

Lemma emitted_INFO opts msg :
  quiet opts = false → emitted opts INFO msg = [(INFO, msg)].
Proof. unfold emitted, setLevel. by intros ->. Qed.

Lemma process_set_Return spec opts set_name st :
  satisfied spec (store st) set_name →
  ∃ lg cs,
    process_set spec opts set_name st =
    (mkState (set_effect spec opts set_name (store st, dump st)).1
       (set_effect spec opts set_name (store st, dump st)).2
       (log st ++ lg) (calls st ++ cs),
     Return tt).
Proof.
  intros Hs. rewrite process_set_eq.
  destruct (check spec set_name =? 0)%nat eqn:Hc.
  - apply Nat.eqb_eq in Hc. rewrite set_effect_unmentioned by done.
    exists [], []. destruct st; simpl. by rewrite !app_nil_r.
  - cbn zeta. unfold satisfied in Hs. rewrite Hs. by eexists _, _.
Qed.

Lemma process_set_Raise spec opts set_name st e :
  missing (set_at (require spec) set_name) (scenario.set (store st) set_name)
  = Some e →
  process_set spec opts set_name st =
  (mkState (store st) (dump st)
     (log st ++ set_log_head opts set_name (scenario.set (store st) set_name)
        ++ [(ERROR, msg_not_found e)])
     (calls st ++ [set_call set_name]),
   Raise (ValueError [])).
Proof.
  intros Hm. rewrite process_set_eq.
  destruct (check spec set_name =? 0)%nat eqn:Hc.
  - apply Nat.eqb_eq, check_0 in Hc as (Hr & _).
    rewrite Hr in Hm. done.
  - cbn zeta. by rewrite Hm, emitted_ERROR.
Qed.

Lemma sets_effect_frame spec opts l p :
  same_registry p.1 (sets_effect spec opts l p).1.
Proof.
  unfold sets_effect. revert p. induction l as [|S l IH]; intros p; simpl.
  - apply same_registry_refl.
  - eapply same_registry_trans; [apply set_effect_frame|apply IH].
Qed.

Lemma sets_effect_set spec opts l p S :
  NoDup l →
  scenario.set (sets_effect spec opts l p).1 S =
  scenario.set p.1 S ++
  (if decide (S ∈ l) then
     if dry_run opts then []
     else (λ e, Ident (effective_id e)) <$> set_at (add spec) S
   else []).
Proof.
  unfold sets_effect. intros Hnd. revert p.
  induction Hnd as [|S0 l Hnotin Hnd IH]; intros p; simpl.
  - by rewrite app_nil_r.
  - rewrite IH, set_effect_set.
    destruct (decide (S = S0)) as [->|Hne].
    + rewrite decide_False by done. rewrite decide_True by apply elem_of_cons, or_introl, eq_refl.
      by rewrite app_nil_r.
    + rewrite app_nil_r. destruct (decide (S ∈ l)) as [Hin|Hn].
      * rewrite decide_True by (by apply elem_of_cons; right). done.
      * rewrite decide_False; [done|].
        intros [?|?]%elem_of_cons; done.
Qed.

Lemma sets_effect_set_other spec opts l p S :
  S ∉ l → scenario.set (sets_effect spec opts l p).1 S = scenario.set p.1 S.
Proof.
  unfold sets_effect. revert p. induction l as [|S0 l IH]; intros p Hn; simpl.
  - done.
  - rewrite IH by (intros ?; apply Hn, elem_of_cons; by right).
    rewrite set_effect_set, decide_False; [by rewrite app_nil_r|].
    intros ->. apply Hn, elem_of_cons. by left.
Qed.

Lemma sets_effect_set_mono spec opts l p S e :
  e ∈ scenario.set p.1 S → e ∈ scenario.set (sets_effect spec opts l p).1 S.
Proof.
  unfold sets_effect. revert p. induction l as [|S0 l IH]; intros p He; simpl.
  - done.
  - apply IH. rewrite set_effect_set. apply elem_of_app. by left.
Qed.

Lemma sets_effect_dry spec opts l p :
  dry_run opts = true → (sets_effect spec opts l p).1 = p.1.
Proof.
  unfold sets_effect. intros Hd. revert p.
  induction l as [|S0 l IH]; intros p; simpl; [done|].
  by rewrite IH, set_effect_dry.
Qed.

Lemma sets_effect_fast spec opts l p :
  fast opts = true →
  par_data (sets_effect spec opts l p).1 = par_data p.1
  ∧ (sets_effect spec opts l p).2 = p.2.
Proof.
  unfold sets_effect. intros Hf. revert p.
  induction l as [|S0 l IH]; intros p; simpl; [done|].
  destruct (IH (set_effect spec opts S0 p)) as [-> ->].
  by apply set_effect_fast.
Qed.

Lemma satisfied_mono spec sc sc' set_name :
  (∀ e, e ∈ scenario.set sc set_name → e ∈ scenario.set sc' set_name) →
  satisfied spec sc set_name → satisfied spec sc' set_name.
Proof. rewrite !satisfied_iff. eauto. Qed.

(** When every set has its required elements, the loop returns. *)
Lemma sets_loop_Return spec opts l st :
  (∀ S, S ∈ l → satisfied spec (store st) S) →
  ∃ lg cs,
    for_each l (process_set spec opts) st =
    (mkState (sets_effect spec opts l (store st, dump st)).1
       (sets_effect spec opts l (store st, dump st)).2
       (log st ++ lg) (calls st ++ cs),
     Return tt).
Proof.
  unfold sets_effect. revert st.
  induction l as [|S l IH]; intros st Hall; simpl.
  - exists [], []. destruct st; simpl. by rewrite ret_eq, !app_nil_r.
  - destruct (process_set_Return spec opts S st) as (lg & cs & Heq).
    { apply Hall, elem_of_cons. by left. }
    rewrite bind_eq, Heq.
    destruct (IH (mkState
                    (set_effect spec opts S (store st, dump st)).1
                    (set_effect spec opts S (store st, dump st)).2
                    (log st ++ lg) (calls st ++ cs)))
      as (lg' & cs' & Heq').
    { intros S' HS'. cbn [store].
      eapply satisfied_mono; [|apply Hall, elem_of_cons; by right].
      intros e He. rewrite set_effect_set. apply elem_of_app. by left. }
    rewrite Heq'. cbn [store dump log calls].
    exists (lg ++ lg'), (cs ++ cs').
    by rewrite !app_assoc, <-surjective_pairing.
Qed.

(** When the sets [pre] have their required elements and the next set lacks
    one, the loop raises there. *)
Lemma sets_loop_Raise spec opts pre set_name post st e :
  (∀ S, S ∈ pre → satisfied spec (store st) S) →
  missing (set_at (require spec) set_name) (scenario.set (store st) set_name)
  = Some e →
  ∃ lg cs,
    for_each (pre ++ set_name :: post) (process_set spec opts) st =
    (mkState (sets_effect spec opts pre (store st, dump st)).1
       (sets_effect spec opts pre (store st, dump st)).2
       (log st ++ lg ++ [(ERROR, msg_not_found e)])
       (calls st ++ cs ++ [set_call set_name]),
     Raise (ValueError [])).
Proof.
  unfold sets_effect. revert st.
  induction pre as [|S pre IH]; intros st Hall Hm; simpl.
  - rewrite bind_eq, (process_set_Raise _ _ _ _ _ Hm).
    by eexists _, [].
  - assert (satisfied spec (store st) S) as HS
      by (apply Hall, elem_of_cons; by left).
    assert (set_name ≠ S) as Hne.
    { intros ->. unfold satisfied in HS. congruence. }
    destruct (process_set_Return spec opts S st HS) as (lg & cs & Heq).
    rewrite bind_eq, Heq.
    destruct (IH (mkState
                    (set_effect spec opts S (store st, dump st)).1
                    (set_effect spec opts S (store st, dump st)).2
                    (log st ++ lg) (calls st ++ cs)))
      as (lg' & cs' & Heq').
    { intros S' HS'. cbn [store].
      eapply satisfied_mono; [|apply Hall, elem_of_cons; by right].
      intros e' He'. rewrite set_effect_set. apply elem_of_app. by left. }
    { cbn [store]. rewrite set_effect_set, decide_False by done.
      by rewrite app_nil_r. }
    rewrite Heq'. cbn [store dump log calls].
    exists (lg ++ lg'), (cs ++ cs').
    by rewrite !app_assoc, <-surjective_pairing.
Qed.

(** A list of sets either has all of its required elements, or has a first
    set that lacks one. *)
Lemma first_unsatisfied spec sc l :
  (∀ S, S ∈ l → satisfied spec sc S)
  ∨ ∃ pre set_name post e,
      l = pre ++ set_name :: post
      ∧ (∀ S, S ∈ pre → satisfied spec sc S)
      ∧ missing (set_at (require spec) set_name) (scenario.set sc set_name)
        = Some e.
Proof.
  induction l as [|S l IH].
  - left. intros S HS. by apply elem_of_nil in HS.
  - destruct (missing (set_at (require spec) S) (scenario.set sc S))
      as [e|] eqn:Hm.
    + right. exists [], S, l, e. split; [done|]. split; [|done].
      intros S' HS'. by apply elem_of_nil in HS'.
    + destruct IH as [Hall|(pre & S' & post & e & -> & Hpre & Hm')].
      * left. intros S' [->|?]%elem_of_cons; [done|by apply Hall].
      * right. exists (S :: pre), S', post, e. split; [done|].
        split; [|done].
        intros S'' [->|?]%elem_of_cons; [done|by apply Hpre].
Qed.

(** ** The whole call *)

Lemma prepared_set opts sc set_name :
  scenario.set (prepared opts sc) set_name = scenario.set sc set_name.
Proof. by rewrite prepared_eq. Qed.

Lemma prepared_satisfied spec opts sc set_name :
  satisfied spec (prepared opts sc) set_name ↔ satisfied spec sc set_name.
Proof. unfold satisfied. by rewrite prepared_set. Qed.

(** A call on a store whose sets have their required elements returns, and
    leaves the store as the loop and the steps after it make it. *)
Lemma apply_spec_Return sc spec data opts :
  (∀ S, S ∈ scenario.set_list sc → satisfied spec sc S) →
  let p := sets_effect spec opts (scenario.set_list sc) (prepared opts sc, ∅) in
  ∃ lg cs,
    apply_spec sc spec data opts =
    (mkState (completed spec data opts p.1) p.2
       (lg ++ completed_log spec opts p.2)
       (prepare_calls opts ++ set_list_call :: cs
          ++ completed_calls spec data opts p.1),
     Return tt).
Proof.
  intros Hall p. rewrite apply_spec_eq.
  destruct (sets_loop_Return spec opts (scenario.set_list sc)
              (mkState (prepared opts sc) ∅ []
                 (prepare_calls opts ++ [set_list_call])))
    as (lg & cs & ->).
  { intros S HS. apply prepared_satisfied, Hall, HS. }
  cbn [store dump log calls]. exists lg, cs.
  by rewrite <-!app_assoc.
Qed.

(** A call on a store in which the sets [pre] have their required elements
    and the next set lacks the element [e] raises when it comes to that
    set. *)
Lemma apply_spec_Raise sc spec data opts pre set_name post e :
  scenario.set_list sc = pre ++ set_name :: post →
  (∀ S, S ∈ pre → satisfied spec sc S) →
  missing (set_at (require spec) set_name) (scenario.set sc set_name)
  = Some e →
  let p := sets_effect spec opts pre (prepared opts sc, ∅) in
  ∃ lg cs,
    apply_spec sc spec data opts =
    (mkState p.1 p.2 (lg ++ [(ERROR, msg_not_found e)])
       (prepare_calls opts ++ set_list_call :: cs ++ [set_call set_name]),
     Raise (ValueError [])).
Proof.
  intros Hl Hpre Hm p. rewrite apply_spec_eq, Hl.
  destruct (sets_loop_Raise spec opts pre set_name post
              (mkState (prepared opts sc) ∅ []
                 (prepare_calls opts ++ [set_list_call])) e)
    as (lg & cs & ->).
  { intros S HS. apply prepared_satisfied, Hpre, HS. }
  { cbn [store]. by rewrite prepared_set. }
  cbn [store dump log calls]. exists lg, cs.
  by rewrite <-!app_assoc.
Qed.

Lemma requirements_met_satisfied spec sc :
  requirements_met spec sc ↔
  ∀ S, S ∈ scenario.set_list sc → satisfied spec sc S.
Proof.
  unfold requirements_met. split.
  - intros H S HS. apply satisfied_iff. intros e He. by apply H.
  - intros H S e HS He. by apply (proj1 (satisfied_iff spec sc S) (H S HS)).
Qed.

Lemma register_all_eq l sc :
  register_all l sc =
  mkScenario (set_names sc) (set_data sc) (par_data sc)
    (units sc ++ unit_entries l) (has_solution sc) (checked_out sc)
    (commits sc).
Proof.
  unfold register_all, unit_entries. revert sc.
  induction l as [|u l IH]; intros sc; simpl.
  - rewrite app_nil_r. by destruct sc.
  - rewrite IH. simpl. by rewrite <-app_assoc.
Qed.

Lemma add_par_data_frame sc data dry :
  same_registry sc (add_par_data sc data dry)
  ∧ set_data (add_par_data sc data dry) = set_data sc.
Proof.
  unfold add_par_data. destruct dry.
  - split; [apply same_registry_refl|done].
  - revert sc. induction data as [|t data IH]; intros sc; simpl.
    + split; [apply same_registry_refl|done].
    + destruct (IH (add_par sc t.1 t.2)) as [H1 H2]. split; [|by rewrite H2].
      eapply same_registry_trans; [|exact H1]. by repeat split.
Qed.

(** The end-to-end scenario, run: the records logged and the calls made. *)
Example end_to_end_run :
  let r := apply_spec coal_store add_gas None default_options in
  r.2 = Return tt
  ∧ log r.1 =
    [(INFO, msg_set "technology"); (INFO, msg_elements 1);
     (INFO, msg_add 1); (DEBUG, msg_add_list [Ident "gas_ppl"]);
     (INFO, msg_rule); (INFO, msg_removed 0); (INFO, msg_commit)]
  ∧ calls r.1 =
    [remove_solution_call; maybe_check_out_call; set_list_call;
     set_call "technology"; add_set_call "technology" "gas_ppl";
     commit_call default_message].
Proof. by vm_compute. Qed.

(** A quiet call that lacks a required element logs the error only. *)
Example quiet_missing_run :
  let r := apply_spec coal_store require_gas None
             (mkOptions true false true None) in
  r.2 = Raise (ValueError [])
  ∧ log r.1 = [(ERROR, msg_not_found (Ident "gas_ppl"))]
  ∧ calls r.1 = [set_list_call; set_call "technology"]
  ∧ store r.1 = coal_store.
Proof. by vm_compute. Qed.

(** ** Missing required elements *)

(** C1 as stated does not hold: for the store with [technology =
    ["coal_ppl"]] and the spec that requires the technology [gas_ppl], a
    required element of a set of the store is absent, and yet the call raises
    no exception that carries the name of the set and the identifier of the
    missing element: [raise ValueError] has no arguments. *)
Lemma missing_required_carries_nothing :
  "technology" ∈ scenario.set_list coal_store
  ∧ Ident "gas_ppl" ∈ set_at (require require_gas) "technology"
  ∧ (Ident "gas_ppl" ∉ scenario.set coal_store "technology")
  ∧ ¬ (∃ x,
         (apply_spec coal_store require_gas None default_options).2 = Raise x
         ∧ carries x "technology" (Ident "gas_ppl")).
Proof.
  split; [by apply (bool_decide_unpack _)|].
  split; [by apply (bool_decide_unpack _)|].
  split; [by apply (bool_decide_unpack _)|].
  intros (x & Hx & Hc). vm_compute in Hx.
  injection Hx as <-. destruct Hc as [Hc _]. by apply elem_of_nil in Hc.
Qed.

(** C1, amended: when some set of the store lacks an element required of
    it, the call raises a bare [ValueError], which reaches the caller; this
    is the only exception the call raises, it is raised only when a set of
    the store lacks a required element, and it has no arguments: the missing
    element is named by the error record logged last. *)
Theorem missing_required_raises sc spec data opts :
  (∀ S e,
     S ∈ scenario.set_list sc → e ∈ set_at (require spec) S →
     e ∉ scenario.set sc S →
     (apply_spec sc spec data opts).2 = Raise (ValueError []))
  ∧ (∀ x,
       (apply_spec sc spec data opts).2 = Raise x →
       x = ValueError []
       ∧ (∃ S e,
            S ∈ scenario.set_list sc ∧ e ∈ set_at (require spec) S
            ∧ (e ∉ scenario.set sc S)
            ∧ last (log (apply_spec sc spec data opts).1)
              = Some (ERROR, msg_not_found e))).
Proof.
  destruct (first_unsatisfied spec sc (scenario.set_list sc))
    as [Hall|(pre & S' & post & e' & Hl & Hpre & Hm)].
  - destruct (apply_spec_Return sc spec data opts Hall) as (lg & cs & Heq).
    split.
    + intros S e HS He Hn. destruct Hn.
      by apply (proj1 (satisfied_iff spec sc S) (Hall S HS)).
    + intros x Hx. by rewrite Heq in Hx.
  - destruct (apply_spec_Raise sc spec data opts _ _ _ _ Hl Hpre Hm)
      as (lg & cs & Heq).
    rewrite Heq. cbn [fst snd log]. split; [done|].
    intros x [= <-]. split; [done|].
    apply missing_Some in Hm as [He Hn].
    exists S', e'. split; [|by rewrite last_snoc].
    rewrite Hl. apply elem_of_app. right. apply elem_of_cons. by left.
Qed.

(** The store with [technology = ["coal_ppl"]] lacks the required [gas_ppl]. *)
Lemma missing_required_raises_witness :
  (apply_spec coal_store require_gas None default_options).2
  = Raise (ValueError []).
Proof.
  apply (proj1 (missing_required_raises coal_store require_gas None
                  default_options) "technology" (Ident "gas_ppl"));
    by apply (bool_decide_unpack _).
Defined.

(** ** Dry runs *)

(** C2: the code does not keep to it.  The store with
    [technology = ["coal_ppl"]] and an empty unit registry lacks no element
    required by the spec that adds the unit [kg_CO2]; the call with [dry_run]
    true registers the unit all the same (the loop of build.py:134-137 has no
    guard, unlike the additions to the sets and the commit), so that the unit
    registry, and with it the store, is not as it was before the call,
    against the docstring of [apply_spec] for [dry_run]. *)
Lemma dry_run_registers_units :
  requirements_met add_kg_CO2 coal_store
  ∧ units coal_store = []
  ∧ units (store (apply_spec coal_store add_kg_CO2 None dry).1)
    = [("kg_CO2", "kg_CO2")]
  ∧ store (apply_spec coal_store add_kg_CO2 None dry).1 ≠ coal_store.
Proof.
  split.
  { intros S e _ He. unfold set_at in He. simpl in He.
    rewrite lookup_total_empty in He. by apply elem_of_nil in He. }
  split; [done|]. split; [by vm_compute|].
  intros Heq. apply (f_equal units) in Heq. by vm_compute in Heq.
Qed.

(** What a call with [dry_run] true does leave alone: when every set of the
    store has its required elements and the callable [data] respects
    [dry_run], the call returns with the set contents, the parameter tables,
    the checkout state, the solve results and the commits as they were; the
    unit registry is the one field that differs, by the entries that the
    unguarded loop over the units has made. *)
Theorem dry_run_frame sc spec data opts :
  dry_run opts = true →
  requirements_met spec sc →
  respects_dry_run data →
  (apply_spec sc spec data opts).2 = Return tt
  ∧ store (apply_spec sc spec data opts).1 =
    mkScenario (set_names sc) (set_data sc) (par_data sc)
      (units sc ++ unit_entries (set_at (add spec) "unit"))
      (has_solution sc) (checked_out sc) (commits sc).
Proof.
  intros Hdry Hreq Hdata.
  destruct (apply_spec_Return sc spec data opts) as (lg & cs & Heq).
  { by apply requirements_met_satisfied. }
  rewrite Heq. cbn [fst snd store]. split; [done|].
  rewrite sets_effect_dry by done. cbn [fst].
  unfold completed, prepared. rewrite Hdry.
  rewrite <-register_all_eq.
  unfold data_effect. destruct data as [f|]; [|done].
  rewrite (Hdata f eq_refl). unfold add_par_data.
  by destruct (truthy _).
Qed.

(** A dry run of the end-to-end scenario leaves the store as it is. *)
Lemma dry_run_frame_witness :
  (apply_spec coal_store add_gas None dry).2 = Return tt
  ∧ store (apply_spec coal_store add_gas None dry).1 =
    mkScenario (set_names coal_store) (set_data coal_store)
      (par_data coal_store)
      (units coal_store ++ unit_entries (set_at (add add_gas) "unit"))
      (has_solution coal_store) (checked_out coal_store)
      (commits coal_store).
Proof.
  apply (dry_run_frame coal_store add_gas None dry).
  - reflexivity.
  - intros S e _ He. unfold set_at in He. simpl in He.
    rewrite lookup_total_empty in He. by apply elem_of_nil in He.
  - intros f Hf. discriminate Hf.
Defined.

(** ** Units *)

Lemma completed_units spec data opts sc :
  keeps_units data →
  units (completed spec data opts sc) =
  units sc ++ unit_entries (set_at (add spec) "unit").
Proof.
  intros Hk. unfold completed.
  assert (units (data_effect data (dry_run opts)
                   (register_all (set_at (add spec) "unit") sc))
          = units sc ++ unit_entries (set_at (add spec) "unit")) as H.
  { unfold data_effect. destruct data as [f|].
    - destruct (truthy _).
      + rewrite (proj1 (proj2 (proj1 (add_par_data_frame _ _ _)))).
        by rewrite (Hk f eq_refl), register_all_eq.
      + by rewrite (Hk f eq_refl), register_all_eq.
    - by rewrite register_all_eq. }
  by destruct (dry_run opts).
Qed.

(** C3 as stated does not hold: the units are not registered in every call.
    The spec adds the unit [kg_CO2] and requires of [technology] an element
    that the store lacks; the call, with [dry_run] false or true, raises at
    the check of the required elements, before the loop over the units, and
    the unit registry is still empty. *)
Lemma units_not_registered_on_abort :
  set_at (add require_gas_add_kg_CO2) "unit" = [Ident "kg_CO2"]
  ∧ (apply_spec coal_store require_gas_add_kg_CO2 None default_options).2
    = Raise (ValueError [])
  ∧ units (store (apply_spec coal_store require_gas_add_kg_CO2 None
                    default_options).1) = []
  ∧ (apply_spec coal_store require_gas_add_kg_CO2 None dry).2
    = Raise (ValueError [])
  ∧ units (store (apply_spec coal_store require_gas_add_kg_CO2 None dry).1)
    = []
  ∧ ¬ ("kg_CO2", "kg_CO2")
      ∈ units (store (apply_spec coal_store require_gas_add_kg_CO2 None
                        dry).1).
Proof.
  repeat split; try by vm_compute.
  assert (units (store (apply_spec coal_store require_gas_add_kg_CO2 None
                          dry).1) = []) as -> by (by vm_compute).
  by intros ?%elem_of_nil.
Qed.

(** C3, amended: a call on a store that has the required elements returns
    and, whatever the value of [dry_run], has registered every entry of [add]
    for ["unit"] with the unit registry of the store, in the order of the
    entries: a string [u] as a [Code] with identifier [u] and name [u], and a
    [Code] with its identifier and, as comment, its name. *)
Theorem units_registered sc spec data opts :
  requirements_met spec sc →
  keeps_units data →
  (apply_spec sc spec data opts).2 = Return tt
  ∧ units (store (apply_spec sc spec data opts).1)
    = units sc ++ unit_entries (set_at (add spec) "unit")
  ∧ (∀ u, Ident u ∈ set_at (add spec) "unit" →
          ensure_Code (Ident u) = mkCode u u
          ∧ (u, u) ∈ units (store (apply_spec sc spec data opts).1))
  ∧ (∀ c, Described c ∈ set_at (add spec) "unit" →
          (id c, name c) ∈ units (store (apply_spec sc spec data opts).1)).
Proof.
  intros Hr Hk.
  destruct (apply_spec_Return sc spec data opts
              (proj1 (requirements_met_satisfied spec sc) Hr))
    as (lg & cs & Heq).
  rewrite Heq. cbn [fst snd store]. split; [done|].
  rewrite completed_units by done.
  assert (units (sets_effect spec opts (scenario.set_list sc)
                   (prepared opts sc, ∅)).1 = units sc) as ->.
  { rewrite (proj1 (proj2 (sets_effect_frame _ _ _ _))).
    by rewrite prepared_eq. }
  split; [done|]. split.
  - intros u Hu. split; [done|]. apply elem_of_app. right.
    unfold unit_entries.
    by apply (list_elem_of_fmap_2
                (λ u, (id (ensure_Code u), name (ensure_Code u))) _ _ Hu).
  - intros c Hc. apply elem_of_app. right. unfold unit_entries.
    by apply (list_elem_of_fmap_2
                (λ u, (id (ensure_Code u), name (ensure_Code u))) _ _ Hc).
Qed.

(** A dry run registers a string and a [Code]. *)
Lemma units_registered_witness :
  units (store (apply_spec coal_store add_two_units None dry).1)
  = [("kg_CO2", "kg_CO2"); ("kg_CO2", "kilograms of CO2")].
Proof.
  refine (proj1 (proj2
            (units_registered coal_store add_two_units None dry _ _))).
  - intros S e _ He. unfold set_at in He. simpl in He.
    rewrite lookup_total_empty in He. by apply elem_of_nil in He.
  - intros f Hf. discriminate Hf.
Defined.

(** ** Abort on the first missing element *)

(** C4: when the sets [pre] that come first in the set list have their
    required elements and the next set lacks one, with [e] the first that it
    lacks, the call raises, having logged [e] last; the store is then as the
    processing of the sets [pre] alone has left it, and the last call made
    on it is the reading of the set that failed: nothing is committed or
    registered, the set that failed and the sets after it are as they were,
    and the elements added to the sets [pre] are still there. *)
Theorem missing_required_aborts sc spec data opts pre set_name post e :
  scenario.set_list sc = pre ++ set_name :: post →
  (∀ S e', S ∈ pre → e' ∈ set_at (require spec) S → e' ∈ scenario.set sc S) →
  missing (set_at (require spec) set_name) (scenario.set sc set_name)
  = Some e →
  (apply_spec sc spec data opts).2 = Raise (ValueError [])
  ∧ last (log (apply_spec sc spec data opts).1)
    = Some (ERROR, msg_not_found e)
  ∧ last (calls (apply_spec sc spec data opts).1) = Some (set_call set_name)
  ∧ store (apply_spec sc spec data opts).1
    = (sets_effect spec opts pre (prepared opts sc, ∅)).1
  ∧ dump (apply_spec sc spec data opts).1
    = (sets_effect spec opts pre (prepared opts sc, ∅)).2
  ∧ commits (store (apply_spec sc spec data opts).1) = commits sc
  ∧ units (store (apply_spec sc spec data opts).1) = units sc
  ∧ (NoDup (scenario.set_list sc) →
     ∀ S,
       scenario.set (store (apply_spec sc spec data opts).1) S =
       scenario.set sc S ++
       (if decide (S ∈ pre) then
          if dry_run opts then []
          else (λ e, Ident (effective_id e)) <$> set_at (add spec) S
        else [])).
Proof.
  intros Hl Hpre Hm.
  destruct (apply_spec_Raise sc spec data opts pre set_name post e Hl)
    as (lg & cs & Heq); [|done|].
  { intros S HS. apply satisfied_iff. intros e' He'. by apply Hpre. }
  rewrite Heq. cbn [fst snd store dump log calls].
  pose proof (sets_effect_frame spec opts pre (prepared opts sc, ∅))
    as (_ & Hu & _ & _ & Hc).
  cbn [fst] in Hu, Hc.
  repeat split; try done.
  - by rewrite last_snoc.
  - by rewrite app_comm_cons, !app_assoc, last_snoc.
  - by rewrite Hc, prepared_eq.
  - by rewrite Hu, prepared_eq.
  - intros Hnd S. rewrite Hl in Hnd.
    apply NoDup_app in Hnd as (Hnd & _ & _).
    rewrite sets_effect_set by done. cbn [fst].
    by rewrite prepared_set.
Qed.

(** The commodity [steel] stays added when the set [technology], processed
    next, lacks the required [gas_ppl]. *)
Lemma missing_required_aborts_witness :
  (apply_spec two_sets add_steel_require_gas None default_options).2
  = Raise (ValueError [])
  ∧ scenario.set
      (store (apply_spec two_sets add_steel_require_gas None
                default_options).1) "commodity"
    = [Ident "coal"; Ident "steel"]
  ∧ scenario.set
      (store (apply_spec two_sets add_steel_require_gas None
                default_options).1) "technology"
    = [Ident "coal_ppl"]
  ∧ commits
      (store (apply_spec two_sets add_steel_require_gas None
                default_options).1) = [].
Proof.
  destruct (missing_required_aborts two_sets add_steel_require_gas None
              default_options ["commodity"] "technology" []
              (Ident "gas_ppl"))
    as (Hr & _ & _ & _ & _ & Hc & _ & Hs).
  - reflexivity.
  - intros S e' HS He'. apply list_elem_of_singleton in HS as ->.
    by vm_compute in He'; apply elem_of_nil in He'.
  - by vm_compute.
  - split; [exact Hr|].
    assert (NoDup (scenario.set_list two_sets)) as Hnd
      by (apply (bool_decide_unpack _); by vm_compute).
    split; [|split; [|exact Hc]].
    + rewrite (Hs Hnd "commodity"). by vm_compute.
    + rewrite (Hs Hnd "technology"). by vm_compute.
Defined.

(** ** Removal of parameter data *)










Section one_removal.

(** A call that is neither a dry run nor fast, with a spec that removes the
    one element [value] of the set [set_name]. *)
Variables (spec : Spec) (opts : options).
Variables (set_name : string) (value : element).
Hypothesis not_dry : dry_run opts = false.
Hypothesis not_fast : fast opts = false.
Hypothesis removes : set (remove spec) = {[set_name := [value]]}.





End one_removal.






Section any_removal.

(** A call that is neither a dry run nor fast, with any spec. *)
Variables (spec : Spec) (opts : options).
Hypothesis not_dry : dry_run opts = false.
Hypothesis not_fast : fast opts = false.







End any_removal.




(** ** Fast calls *)

Lemma add_rows_has_row tables par_name rows n r :
  (∃ rows0, (n, rows0) ∈ tables ∧ r ∈ rows0) →
  ∃ rows0, (n, rows0) ∈ add_rows par_name rows tables ∧ r ∈ rows0.
Proof.
  induction tables as [|t tables IH]; simpl.
  - by intros (rows0 & ?%elem_of_nil & _).
  - intros (rows0 & [<-|Hin]%elem_of_cons & Hr); simpl.
    + destruct (decide (n = par_name)) as [->|Hne].
      * exists (rows0 ++ rows). split; [by apply elem_of_cons; left|].
        apply elem_of_app. by left.
      * exists rows0. split; [by apply elem_of_cons; left|done].
    + destruct (decide (t.1 = par_name)) as [Heq|Hne].
      * exists rows0. split; [by apply elem_of_cons; right|done].
      * destruct IH as (rows1 & Hin1 & Hr1); [by exists rows0|].
        exists rows1. split; [by apply elem_of_cons; right|done].
Qed.

Lemma add_par_data_has_row sc data b par_name r :
  has_row sc par_name r → has_row (add_par_data sc data b) par_name r.
Proof.
  unfold add_par_data. destruct b; [done|].
  revert sc. induction data as [|t data IH]; intros sc Hr; simpl; [done|].
  apply IH. unfold has_row, add_par. simpl. by apply add_rows_has_row.
Qed.

Lemma has_row_ext sc sc' par_name r :
  par_data sc = par_data sc' → has_row sc par_name r → has_row sc' par_name r.
Proof. unfold has_row. by intros ->. Qed.

Lemma completed_has_row spec data opts sc par_name r :
  keeps_rows data →
  has_row sc par_name r → has_row (completed spec data opts sc) par_name r.
Proof.
  intros Hk Hr. unfold completed.
  assert (has_row (data_effect data (dry_run opts)
                     (register_all (set_at (add spec) "unit") sc))
            par_name r) as H.
  { assert (has_row (register_all (set_at (add spec) "unit") sc) par_name r)
      as Hr' by (eapply has_row_ext; [|exact Hr]; by rewrite register_all_eq).
    unfold data_effect. destruct data as [f|]; [|done].
    destruct (truthy _).
    - apply add_par_data_has_row. by apply (Hk f eq_refl).
    - by apply (Hk f eq_refl). }
  destruct (dry_run opts); [done|].
  eapply has_row_ext; [|exact H]. done.
Qed.

(** With [fast] true the loop never calls [strip_par_data]. *)
Lemma sets_loop_fast_calls spec opts l st c :
  fast opts = true →
  c ∈ calls (for_each l (process_set spec opts) st).1 →
  is_strip c = true → c ∈ calls st.
Proof.
  intros Hfast. revert st. induction l as [|S0 l IH]; intros st Hc HS;
    simpl in Hc; [done|].
  rewrite bind_eq, process_set_eq in Hc.
  destruct (check spec S0 =? 0)%nat; [by apply IH|].
  cbn zeta in Hc.
  destruct (missing (set_at (require spec) S0) (scenario.set (store st) S0)).
  - cbn [fst calls] in Hc. apply elem_of_app in Hc as [?|Hc]; [done|].
    by apply list_elem_of_singleton in Hc as ->.
  - apply IH in Hc; [|done]. cbn [calls] in Hc.
    apply elem_of_app in Hc as [?|Hc]; [done|].
    unfold set_calls in Hc. rewrite Hfast in Hc. cbn [app] in Hc.
    apply elem_of_cons in Hc as [->|Hc]; [done|].
    destruct (dry_run opts); [by apply elem_of_nil in Hc|].
    by apply list_elem_of_fmap in Hc as (e & -> & _).
Qed.

Lemma apply_spec_fast_calls sc spec data opts c :
  fast opts = true →
  c ∈ calls (apply_spec sc spec data opts).1 → is_strip c = false.
Proof.
  intros Hfast. rewrite apply_spec_eq. intros Hc.
  destruct (is_strip c) eqn:HS; [|done].
  assert (c ∉ prepare_calls opts ++ [set_list_call]) as Hpre.
  { unfold prepare_calls. intros Hc'.
    destruct (dry_run opts); cbn [app] in Hc';
      repeat (apply elem_of_cons in Hc' as [->|Hc']; [done|]);
      by apply elem_of_nil in Hc'. }
  pose proof (sets_loop_fast_calls spec opts (scenario.set_list sc)
                (mkState (prepared opts sc) ∅ []
                   (prepare_calls opts ++ [set_list_call])) c Hfast) as Hloop.
  destruct (for_each (scenario.set_list sc) (process_set spec opts) _)
    as [st [[]|e]]; cbn [fst calls] in Hc, Hloop.
  - apply elem_of_app in Hc as [Hc|Hc]; [by destruct Hpre; apply Hloop|].
    unfold completed_calls in Hc.
    apply elem_of_app in Hc as [Hc|[Hc|Hc]%elem_of_app].
    + by apply list_elem_of_fmap in Hc as (u & -> & _).
    + unfold data_calls in Hc.
      destruct data as [f|]; [|by apply elem_of_nil in Hc].
      apply elem_of_cons in Hc as [->|Hc]; [done|].
      destruct (truthy _); [|by apply elem_of_nil in Hc].
      by apply list_elem_of_singleton in Hc as ->.
    + destruct (dry_run opts); [by apply elem_of_nil in Hc|].
      by apply list_elem_of_singleton in Hc as ->.
  - by destruct Hpre; apply Hloop.
Qed.

(** C6: a call with [fast] true strips no parameter data: it never calls
    [strip_par_data].  Whether it returns or raises, the ledger is empty at
    its end; the parameter tables are those of the store before the call
    when there is no callable [data]; and every row that was in a table of
    the store is still in it when the callable [data] leaves the rows in
    their tables. *)
Theorem fast_strips_nothing sc spec data opts :
  fast opts = true →
  (∀ c, c ∈ calls (apply_spec sc spec data opts).1 → is_strip c = false)
  ∧ dump (apply_spec sc spec data opts).1 = ∅
  ∧ (data = None →
     par_data (store (apply_spec sc spec data opts).1) = par_data sc)
  ∧ (keeps_rows data →
     ∀ par_name r,
       has_row sc par_name r →
       has_row (store (apply_spec sc spec data opts).1) par_name r).
Proof.
  intros Hfast.
  split; [intros c; by apply apply_spec_fast_calls|].
  assert (∀ l, par_data (sets_effect spec opts l (prepared opts sc, ∅)).1
               = par_data sc
               ∧ (sets_effect spec opts l (prepared opts sc, ∅)).2 = ∅)
    as Hloop.
  { intros l. destruct (sets_effect_fast spec opts l (prepared opts sc, ∅))
      as [-> ->]; [done|]. by rewrite prepared_eq. }
  destruct (first_unsatisfied spec sc (scenario.set_list sc))
    as [Hall|(pre & S' & post & e' & Hl & Hpre & Hm)].
  - destruct (apply_spec_Return sc spec data opts Hall) as (lg & cs & Heq).
    rewrite Heq. cbn [fst store dump].
    destruct (Hloop (scenario.set_list sc)) as [Hp Hd].
    split; [done|]. split.
    + intros ->. unfold completed, data_effect.
      rewrite register_all_eq. cbn [par_data].
      by destruct (dry_run opts).
    + intros Hk par_name r Hr. apply completed_has_row; [done|].
      eapply has_row_ext; [symmetry; exact Hp|done].
  - destruct (apply_spec_Raise sc spec data opts _ _ _ _ Hl Hpre Hm)
      as (lg & cs & Heq).
    rewrite Heq. cbn [fst store dump].
    destruct (Hloop pre) as [Hp Hd].
    split; [done|]. split; [done|].
    intros _ par_name r Hr. eapply has_row_ext; [symmetry; exact Hp|done].
Qed.

(** The same removal, fast: both rows stay and the ledger is empty. *)
Lemma fast_strips_nothing_witness :
  dump (apply_spec store_with_rows remove_coal None
          (mkOptions false true false None)).1 = ∅
  ∧ par_data
      (store (apply_spec store_with_rows remove_coal None
                (mkOptions false true false None)).1)
    = [("output", [coal_row; wind_row])].
Proof.
  destruct (fast_strips_nothing store_with_rows remove_coal None
              (mkOptions false true false None) eq_refl)
    as (_ & Hd & Hp & _).
  split; [exact Hd|]. by rewrite (Hp eq_refl).
Defined.

(** ** Addition of elements *)


Lemma completed_set spec data opts sc S :
  keeps_sets data →
  scenario.set (completed spec data opts sc) S = scenario.set sc S.
Proof.
  intros Hk. unfold scenario.set. f_equal. unfold completed.
  assert (set_data (data_effect data (dry_run opts)
                      (register_all (set_at (add spec) "unit") sc))
          = set_data sc) as H.
  { unfold data_effect. destruct data as [f|].
    - destruct (truthy _).
      + rewrite (proj2 (add_par_data_frame _ _ _)).
        by rewrite (Hk f eq_refl), register_all_eq.
      + by rewrite (Hk f eq_refl), register_all_eq.
    - by rewrite register_all_eq. }
  by destruct (dry_run opts).
Qed.



(** ** The steps before the loop *)

(** C8: a call with [dry_run] false first calls [remove_solution], then
    [maybe_check_out], and only then reads the set list and processes the
    sets: the rest of the call runs on the store with its solve results
    discarded and checked out, whether or not there were solve results to
    discard, the [ValueError] of [remove_solution] being passed over; a store
    without solve results is left as it is by the first step, and a store
    that is checked out by the second. *)
Theorem prepare_before_sets sc spec data opts :
  dry_run opts = false →
  apply_spec sc spec data opts =
  migrate spec data opts
    (mkState
       (mkScenario (set_names sc) (set_data sc) (par_data sc) (units sc)
          false true (commits sc))
       ∅ [] [remove_solution_call; maybe_check_out_call])
  ∧ (∃ rest,
       calls (apply_spec sc spec data opts).1 =
       remove_solution_call :: maybe_check_out_call :: set_list_call :: rest)
  ∧ (has_solution sc = false →
     (scenario.remove_solution sc).1 = sc
     ∧ ∃ args, (scenario.remove_solution sc).2 = Raise (ValueError args))
  ∧ (has_solution sc = true →
     has_solution (scenario.remove_solution sc).1 = false
     ∧ (scenario.remove_solution sc).2 = Return tt)
  ∧ (∀ sc', checked_out sc' = true → scenario.maybe_check_out sc' = sc')
  ∧ (∀ sc', checked_out (scenario.maybe_check_out sc') = true).
Proof.
  intros Hdry. split; [|split; [|split; [|split; [|split]]]].
  - unfold apply_spec. rewrite bind_eq, prepare_eq.
    cbn [store dump log calls]. rewrite prepared_eq.
    unfold prepare_calls. by rewrite Hdry.
  - destruct (first_unsatisfied spec sc (scenario.set_list sc))
      as [Hall|(pre & S' & post & e' & Hl & Hpre & Hm)].
    + destruct (apply_spec_Return sc spec data opts Hall) as (lg & cs & ->).
      unfold prepare_calls. rewrite Hdry. by eexists.
    + destruct (apply_spec_Raise sc spec data opts _ _ _ _ Hl Hpre Hm)
        as (lg & cs & ->).
      unfold prepare_calls. rewrite Hdry. by eexists.
  - intros Hs. unfold scenario.remove_solution. rewrite Hs.
    split; [done|by eexists].
  - intros Hs. unfold scenario.remove_solution. by rewrite Hs.
  - intros sc' Hc. unfold scenario.maybe_check_out. by rewrite Hc.
  - intros sc'. unfold scenario.maybe_check_out.
    by destruct (checked_out sc') eqn:Hc.
Qed.

(** The first calls of the end-to-end scenario. *)
Lemma prepare_before_sets_witness :
  ∃ rest,
    calls (apply_spec coal_store add_gas None default_options).1 =
    remove_solution_call :: maybe_check_out_call :: set_list_call :: rest.
Proof.
  exact (proj1 (proj2 (prepare_before_sets coal_store add_gas None
                         default_options eq_refl))).
Defined.

(** ** Set names that the store does not know *)






Lemma data_calls_set data b sc c S :
  c ∈ data_calls data b sc → call_set c ≠ Some S.
Proof.
  unfold data_calls. destruct data as [f|]; [|by intros ?%elem_of_nil].
  intros [->|Hc]%elem_of_cons; [done|].
  destruct (truthy _); [|by apply elem_of_nil in Hc].
  by apply list_elem_of_singleton in Hc as ->.
Qed.




(** ** Comparison of required elements *)

(** C10: the check of the required elements compares whole values.
    Processing a set returns exactly when every element required of it is a
    member of its contents; a required [Code] that is not a member makes it
    raise, even when the contents hold its identifier as a string; whereas
    the addition of a [Code] appends its identifier as a string, so that a
    [Code] that has just been added is still not a member. *)
Theorem required_by_value spec opts S st :
  ((process_set spec opts S st).2 = Return tt ↔
   ∀ e, e ∈ set_at (require spec) S → e ∈ scenario.set (store st) S)
  ∧ (∀ c,
       Described c ∈ set_at (require spec) S →
       Described c ∉ scenario.set (store st) S →
       (process_set spec opts S st).2 = Raise (ValueError []))
  ∧ (∀ c,
       Described c ∉ Ident (id c) :: scenario.set (store st) S ↔
       Described c ∉ scenario.set (store st) S)
  ∧ (∀ c,
       scenario.set (add_all S [Described c] (store st)) S
       = scenario.set (store st) S ++ [Ident (id c)]
       ∧ (Described c ∉ scenario.set (store st) S →
          Described c ∉ scenario.set (add_all S [Described c] (store st)) S)).
Proof.
  assert ((process_set spec opts S st).2 = Return tt ↔
          ∀ e, e ∈ set_at (require spec) S → e ∈ scenario.set (store st) S)
    as Hiff.
  { rewrite <-satisfied_iff. unfold satisfied. split.
    - intros Hr.
      destruct (missing (set_at (require spec) S) (scenario.set (store st) S))
        as [e|] eqn:Hm; [|done].
      by rewrite (process_set_Raise spec opts S st e Hm) in Hr.
    - intros Hs.
      by destruct (process_set_Return spec opts S st Hs) as (lg & cs & ->). }
  split; [exact Hiff|]. split; [|split].
  - intros c Hc Hn.
    destruct (missing (set_at (require spec) S) (scenario.set (store st) S))
      as [e|] eqn:Hm.
    + by rewrite (process_set_Raise spec opts S st e Hm).
    + destruct Hn. by apply (proj1 (missing_None _ _) Hm).
  - intros c. rewrite not_elem_of_cons. split; [by intros [_ ?]|done].
  - intros c. rewrite add_all_set, decide_True by done. split; [done|].
    intros Hn [?|Hin]%elem_of_app; [done|].
    by apply list_elem_of_singleton in Hin.
Qed.

(** The string [coal_ppl] in the store does not meet the requirement of the
    [Code] of that identifier. *)
Lemma required_by_value_witness :
  Ident "coal_ppl" ∈ scenario.set coal_store "technology"
  ∧ (process_set require_coal_Code default_options "technology"
       (mkState coal_store ∅ [] [])).2 = Raise (ValueError []).
Proof.
  split; [by apply (bool_decide_unpack _)|].
  apply (proj1 (proj2 (required_by_value require_coal_Code default_options
                         "technology" (mkState coal_store ∅ [] [])))
           (mkCode "coal_ppl" "coal_ppl"));
    by apply (bool_decide_unpack _).
Defined.

(** * Further properties of [apply_spec] *)

(** ** The outcome does not depend on the options *)

(** Whether a call returns or raises is decided by the scenario and the spec
    alone: [dry_run], [fast], [quiet], [message] and the callable [data] have
    no part in it, so that a dry run raises exactly when the real run
    would. *)
Theorem outcome_independent sc spec data data' opts opts' :
  (apply_spec sc spec data opts).2 = (apply_spec sc spec data' opts').2.
Proof.
  destruct (first_unsatisfied spec sc (scenario.set_list sc))
    as [Hall|(pre & S' & post & e' & Hl & Hpre & Hm)].
  - destruct (apply_spec_Return sc spec data opts Hall) as (lg & cs & ->).
    by destruct (apply_spec_Return sc spec data' opts' Hall) as (lg' & cs' & ->).
  - destruct (apply_spec_Raise sc spec data opts _ _ _ _ Hl Hpre Hm)
      as (lg & cs & ->).
    by destruct (apply_spec_Raise sc spec data' opts' _ _ _ _ Hl Hpre Hm)
      as (lg' & cs' & ->).
Qed.

(** ** A dry run that fails *)

(** A call with [dry_run] true that raises leaves the scenario exactly as it
    found it, whatever the callable [data] is: it is never called. *)
Theorem dry_run_raise_untouched sc spec data opts x :
  dry_run opts = true →
  (apply_spec sc spec data opts).2 = Raise x →
  store (apply_spec sc spec data opts).1 = sc.
Proof.
  intros Hdry Hx.
  destruct (first_unsatisfied spec sc (scenario.set_list sc))
    as [Hall|(pre & S' & post & e' & Hl & Hpre & Hm)].
  - destruct (apply_spec_Return sc spec data opts Hall) as (lg & cs & Heq).
    by rewrite Heq in Hx.
  - destruct (apply_spec_Raise sc spec data opts _ _ _ _ Hl Hpre Hm)
      as (lg & cs & ->).
    cbn [fst store]. rewrite sets_effect_dry by done. cbn [fst].
    unfold prepared. by rewrite Hdry.
Qed.

(** The spec that adds the technology [steel_plant] and the unit [kg_CO2]
    and requires [gas_ppl], run dry on the store that lacks it. *)
Lemma dry_run_raise_untouched_witness :
  store (apply_spec coal_store
           (mkSpec (mkInfo {["technology" := [Ident "gas_ppl"]]}) no_info
              (mkInfo {["technology" := [Ident "steel_plant"];
                        "unit" := [Ident "kg_CO2"]]}))
           None dry).1 = coal_store.
Proof.
  apply (dry_run_raise_untouched _ _ _ _ (ValueError [])).
  - reflexivity.
  - by vm_compute.
Defined.

(** Every call made for a set is a call on that set. *)
Lemma set_calls_about spec opts S c :
  c ∈ set_calls spec opts S → call_set c = Some S.
Proof.
  unfold set_calls.
  intros [->|[Hc|Hc]%elem_of_app]%elem_of_cons; [done|..].
  - destruct (fast opts); [by apply elem_of_nil in Hc|].
    by apply list_elem_of_fmap in Hc as (e & -> & _).
  - destruct (dry_run opts); [by apply elem_of_nil in Hc|].
    by apply list_elem_of_fmap in Hc as (e & -> & _).
Qed.

(** The calls that the loop makes are calls on sets. *)
Lemma sets_loop_calls_kind spec opts l st c :
  c ∈ calls (for_each l (process_set spec opts) st).1 →
  c ∈ calls st ∨ is_Some (call_set c).
Proof.
  revert st. induction l as [|S l IH]; intros st Hc; simpl in Hc; [by left|].
  rewrite bind_eq, process_set_eq in Hc.
  destruct (check spec S =? 0)%nat; [by apply IH|]. cbn zeta in Hc.
  destruct (missing (set_at (require spec) S) (scenario.set (store st) S)).
  - cbn [fst calls] in Hc. apply elem_of_app in Hc as [?|Hc]; [by left|].
    apply list_elem_of_singleton in Hc as ->. right. by eexists.
  - apply IH in Hc as [Hc|?]; [|by right]. cbn [calls] in Hc.
    apply elem_of_app in Hc as [?|Hc]; [by left|].
    right. rewrite (set_calls_about _ _ _ _ Hc). by eexists.
Qed.

(** ** The shape of the log *)

Lemma emitted_routine opts lvl msg :
  lvl ≠ ERROR → Forall (routine opts) (emitted opts lvl msg).
Proof.
  intros Hl. unfold emitted.
  destruct (levelno (setLevel opts) <=? levelno lvl)%nat eqn:Hle; [|done].
  apply Forall_singleton. split; [done|]. by apply Nat.leb_le.
Qed.

Lemma set_log_head_routine opts S base :
  Forall (routine opts) (set_log_head opts S base).
Proof. unfold set_log_head. apply Forall_app; split; by apply emitted_routine. Qed.

Lemma flat_map_emitted_routine {A : Type} opts lvl (f : A → log_message) l :
  lvl ≠ ERROR → Forall (routine opts) (flat_map (λ x, emitted opts lvl (f x)) l).
Proof.
  intros Hl. induction l as [|x l IH]; simpl; [done|].
  apply Forall_app; split; [by apply emitted_routine|done].
Qed.

Lemma set_log_tail_routine spec opts S :
  Forall (routine opts) (set_log_tail spec opts S).
Proof.
  unfold set_log_tail. repeat (apply Forall_app; split).
  - destruct (_ =? _)%nat; [done|by apply emitted_routine].
  - destruct (fast opts); [by apply emitted_routine|].
    by apply flat_map_emitted_routine.
  - destruct (_ =? _)%nat; [done|].
    apply Forall_app; split; by apply emitted_routine.
  - by apply emitted_routine.
Qed.

Lemma completed_log_routine spec opts d :
  Forall (routine opts) (completed_log spec opts d).
Proof.
  unfold completed_log. repeat (apply Forall_app; split).
  - by apply emitted_routine.
  - by apply flat_map_emitted_routine.
  - by apply emitted_routine.
Qed.

(** The loop logs records of progress and, when it raises, one error record
    after them. *)
Lemma sets_loop_log spec opts l st :
  ∃ lg tail,
    Forall (routine opts) lg
    ∧ log (for_each l (process_set spec opts) st).1 = log st ++ lg ++ tail
    ∧ match (for_each l (process_set spec opts) st).2 with
      | Return _ => tail = []
      | Raise _ => ∃ e, tail = [(ERROR, msg_not_found e)]
      end.
Proof.
  revert st. induction l as [|S l IH]; intros st; simpl.
  - exists [], []. by rewrite !app_nil_r.
  - rewrite bind_eq, process_set_eq.
    destruct (check spec S =? 0)%nat; [apply IH|]. cbn zeta.
    destruct (missing (set_at (require spec) S) (scenario.set (store st) S))
      as [e|].
    + exists (set_log_head opts S (scenario.set (store st) S)),
        [(ERROR, msg_not_found e)].
      cbn [fst snd log]. rewrite emitted_ERROR.
      split; [apply set_log_head_routine|]. split; [done|by exists e].
    + match goal with
      | |- context [for_each l _ ?st1] =>
          destruct (IH st1) as (lg & tail & Hlg & Hlog & Hout)
      end.
      cbn [log] in Hlog.
      exists ((set_log_head opts S (scenario.set (store st) S)
               ++ set_log_tail spec opts S) ++ lg), tail.
      split; [|split; [|done]].
      * apply Forall_app; split; [|done].
        apply Forall_app; split;
          [apply set_log_head_routine|apply set_log_tail_routine].
      * rewrite Hlog. by rewrite <-!app_assoc.
Qed.

(** So does the whole call. *)
Lemma apply_spec_log sc spec data opts :
  ∃ lg tail,
    Forall (routine opts) lg
    ∧ log (apply_spec sc spec data opts).1 = lg ++ tail
    ∧ match (apply_spec sc spec data opts).2 with
      | Return _ => tail = []
      | Raise _ => ∃ e, tail = [(ERROR, msg_not_found e)]
      end.
Proof.
  rewrite apply_spec_eq.
  destruct (sets_loop_log spec opts (scenario.set_list sc)
              (mkState (prepared opts sc) ∅ []
                 (prepare_calls opts ++ [set_list_call])))
    as (lg & tail & Hlg & Hlog & Hout).
  cbn [log app] in Hlog.
  destruct (for_each (scenario.set_list sc) (process_set spec opts) _)
    as [st [[]|x]]; cbn [fst snd log] in *.
  - subst tail. exists (lg ++ completed_log spec opts (dump st)), [].
    split; [|split; [|done]].
    + apply Forall_app; split; [done|apply completed_log_routine].
    + by rewrite Hlog, !app_nil_r.
  - by exists lg, tail.
Qed.

(** ** Quiet calls *)

(** With [quiet] true the level of the logger is [ERROR]: a call that returns
    logs nothing at all, and a call that raises logs exactly one record, the
    error that names the missing element. *)
Theorem quiet_logs_errors_only sc spec data opts :
  quiet opts = true →
  match (apply_spec sc spec data opts).2 with
  | Return _ => log (apply_spec sc spec data opts).1 = []
  | Raise _ =>
      ∃ e, log (apply_spec sc spec data opts).1 = [(ERROR, msg_not_found e)]
  end.
Proof.
  intros Hq.
  destruct (apply_spec_log sc spec data opts)
    as (lg & tail & Hlg & Hlog & Hout).
  assert (lg = []) as ->.
  { destruct lg as [|[lvl msg] lg]; [done|].
    apply Forall_cons in Hlg as [[Hne Hle] _]. cbn [fst] in Hne, Hle.
    unfold setLevel in Hle. rewrite Hq in Hle.
    destruct lvl; [simpl in Hle; lia|simpl in Hle; lia|done]. }
  rewrite Hlog. cbn [app].
  by destruct ((apply_spec sc spec data opts).2).
Qed.

(** A quiet call on the store that lacks the required [gas_ppl]. *)
Lemma quiet_logs_errors_only_witness :
  log (apply_spec coal_store require_gas None
         (mkOptions false false true None)).1
  = [(ERROR, msg_not_found (Ident "gas_ppl"))].
Proof.
  pose proof (quiet_logs_errors_only coal_store require_gas None
                (mkOptions false false true None) eq_refl) as H.
  assert ((apply_spec coal_store require_gas None
             (mkOptions false false true None)).2 = Raise (ValueError []))
    as Hr by (by vm_compute).
  rewrite Hr in H. destruct H as (e & He). rewrite He.
  assert (last (log (apply_spec coal_store require_gas None
                       (mkOptions false false true None)).1)
          = Some (ERROR, msg_not_found (Ident "gas_ppl")))
    as Hl by (by vm_compute).
  rewrite He in Hl. by injection Hl as ->.
Defined.

(** ** The record of the commit *)

(** A call that is not quiet and finds the required elements ends its log
    with the record of the commit, also when [dry_run] is true; in that case
    it makes no commit, whatever the callable [data] is. *)
Theorem commit_logged_even_if_dry sc spec data opts :
  requirements_met spec sc →
  quiet opts = false →
  last (log (apply_spec sc spec data opts).1) = Some (INFO, msg_commit)
  ∧ (dry_run opts = true →
     ∀ c msg, c ∈ calls (apply_spec sc spec data opts).1 → c ≠ commit_call msg)
  ∧ (dry_run opts = false →
     last (calls (apply_spec sc spec data opts).1)
     = Some (commit_call (default default_message (message opts)))).
Proof.
  intros Hreq Hq.
  destruct (apply_spec_Return sc spec data opts
              (proj1 (requirements_met_satisfied spec sc) Hreq))
    as (lg & cs & Heq).
  split; [|split].
  - rewrite Heq. cbn [fst log]. unfold completed_log.
    rewrite (emitted_INFO opts msg_commit) by done.
    by rewrite !app_assoc, last_snoc.
  - intros Hdry c msg Hc ->.
    rewrite apply_spec_eq in Hc.
    pose proof (sets_loop_calls_kind spec opts (scenario.set_list sc)
                  (mkState (prepared opts sc) ∅ []
                     (prepare_calls opts ++ [set_list_call]))
                  (commit_call msg)) as Hloop.
    cbn [calls] in Hloop. unfold prepare_calls in Hloop.
    rewrite Hdry in Hloop. cbn [app] in Hloop.
    assert (commit_call msg
            ∉ calls (for_each (scenario.set_list sc) (process_set spec opts)
                       (mkState (prepared opts sc) ∅ []
                          (prepare_calls opts ++ [set_list_call]))).1)
      as Hnot.
    { unfold prepare_calls. rewrite Hdry. cbn [app].
      intros [Hin|[? [=]]]%Hloop. by apply list_elem_of_singleton in Hin. }
    destruct (for_each (scenario.set_list sc) (process_set spec opts) _)
      as [st [[]|x]]; cbn [fst calls] in Hc, Hnot; [|done].
    apply elem_of_app in Hc as [Hc|Hc]; [done|].
    unfold completed_calls in Hc. rewrite Hdry, app_nil_r in Hc.
    apply elem_of_app in Hc as [Hc|Hc].
    + by apply list_elem_of_fmap in Hc as (u & ? & _).
    + unfold data_calls in Hc.
      destruct data as [f|]; [|by apply elem_of_nil in Hc].
      apply elem_of_cons in Hc as [?|Hc]; [done|].
      destruct (truthy _); [|by apply elem_of_nil in Hc].
      by apply list_elem_of_singleton in Hc.
  - intros Hdry. rewrite Heq. cbn [fst calls]. unfold completed_calls.
    rewrite Hdry. by rewrite app_comm_cons, !app_assoc, last_snoc.
Qed.

(** The dry run of the end-to-end scenario. *)
Lemma commit_logged_even_if_dry_witness :
  last (log (apply_spec coal_store add_gas None dry).1)
  = Some (INFO, msg_commit)
  ∧ commits (store (apply_spec coal_store add_gas None dry).1) = [].
Proof.
  split; [|by vm_compute].
  apply (commit_logged_even_if_dry coal_store add_gas None dry).
  - intros S e _ He. unfold set_at in He. simpl in He.
    rewrite lookup_total_empty in He. by apply elem_of_nil in He.
  - reflexivity.
Defined.

(** ** What a failed call leaves undone *)

(** A call that raises has made no call other than those of the steps before
    the loop and of the loop: no unit is registered, the callable [data] is
    not called, nothing is merged or committed. *)
Theorem failure_skips_rest sc spec data opts x :
  (apply_spec sc spec data opts).2 = Raise x →
  (∀ c, c ∈ calls (apply_spec sc spec data opts).1 → after_loop c = false)
  ∧ units (store (apply_spec sc spec data opts).1) = units sc
  ∧ commits (store (apply_spec sc spec data opts).1) = commits sc.
Proof.
  intros Hx. split.
  - intros c Hc. rewrite apply_spec_eq in Hc, Hx.
    pose proof (sets_loop_calls_kind spec opts (scenario.set_list sc)
                  (mkState (prepared opts sc) ∅ []
                     (prepare_calls opts ++ [set_list_call])) c) as Hloop.
    destruct (for_each (scenario.set_list sc) (process_set spec opts) _)
      as [st [[]|e]]; [done|]. cbn [fst calls] in Hc, Hloop.
    destruct (Hloop Hc) as [Hpre|[S HS]].
    + unfold prepare_calls in Hpre.
      destruct (dry_run opts); cbn [app] in Hpre;
        repeat (apply elem_of_cons in Hpre as [->|Hpre]; [done|]);
        by apply elem_of_nil in Hpre.
    + by destruct c.
  - destruct (first_unsatisfied spec sc (scenario.set_list sc))
      as [Hall|(pre & S' & post & e' & Hl & Hpre & Hm)].
    + destruct (apply_spec_Return sc spec data opts Hall) as (lg & cs & Heq).
      by rewrite Heq in Hx.
    + destruct (apply_spec_Raise sc spec data opts _ _ _ _ Hl Hpre Hm)
        as (lg & cs & ->).
      cbn [fst store].
      pose proof (sets_effect_frame spec opts pre (prepared opts sc, ∅))
        as (_ & Hu & _ & _ & Hc).
      cbn [fst] in Hu, Hc. rewrite Hu, Hc. by rewrite prepared_eq.
Qed.

(** A callable [data] that would register a unit and commit: it is not
    reached when the required [gas_ppl] is lacking. *)
Lemma failure_skips_rest_witness :
  units (store (apply_spec coal_store require_gas
                  (Some (λ sc _,
                     (scenario.commit (scenario.add_unit sc "t" "tonne") "x",
                      None)))
                  default_options).1) = []
  ∧ commits (store (apply_spec coal_store require_gas
                      (Some (λ sc _,
                         (scenario.commit (scenario.add_unit sc "t" "tonne")
                            "x", None)))
                      default_options).1) = [].
Proof.
  destruct (failure_skips_rest coal_store require_gas
              (Some (λ sc _,
                 (scenario.commit (scenario.add_unit sc "t" "tonne") "x",
                  None)))
              default_options (ValueError [])) as (_ & Hu & Hc).
  - by vm_compute.
  - by rewrite Hu, Hc.
Defined.

(** ** Sets that the spec does not mention *)

Lemma sets_loop_calls_mentioned spec opts l st c S :
  c ∈ calls (for_each l (process_set spec opts) st).1 →
  call_set c = Some S → c ∈ calls st ∨ check spec S ≠ 0.
Proof.
  revert st. induction l as [|S0 l IH]; intros st Hc HS; simpl in Hc;
    [by left|].
  rewrite bind_eq, process_set_eq in Hc.
  destruct (check spec S0 =? 0)%nat eqn:Hch; [by apply IH|].
  apply Nat.eqb_neq in Hch. cbn zeta in Hc.
  destruct (missing (set_at (require spec) S0) (scenario.set (store st) S0)).
  - cbn [fst calls] in Hc. apply elem_of_app in Hc as [?|Hc]; [by left|].
    apply list_elem_of_singleton in Hc as ->. injection HS as <-. by right.
  - destruct (IH _ Hc HS) as [Hc'|?]; [|by right]. cbn [calls] in Hc'.
    apply elem_of_app in Hc' as [?|Hc']; [by left|].
    right. rewrite (set_calls_about _ _ _ _ Hc') in HS. by injection HS as <-.
Qed.

Lemma sets_effect_set_unmentioned spec opts l p S :
  check spec S = 0 →
  scenario.set (sets_effect spec opts l p).1 S = scenario.set p.1 S.
Proof.
  intros (_ & _ & Ha)%check_0. unfold sets_effect. revert p.
  induction l as [|S0 l IH]; intros p; simpl; [done|].
  rewrite IH, set_effect_set.
  destruct (decide (S = S0)) as [<-|?]; [|by rewrite app_nil_r].
  rewrite Ha. destruct (dry_run opts); by rewrite app_nil_r.
Qed.

(** A set that none of [require], [remove] and [add] mentions is not even
    read: the call makes no call on it, and its contents are what they were
    when the callable [data] leaves the sets alone. *)
Theorem unmentioned_set_untouched sc spec data opts S :
  check spec S = 0 →
  (∀ c, c ∈ calls (apply_spec sc spec data opts).1 → call_set c ≠ Some S)
  ∧ (keeps_sets data →
     scenario.set (store (apply_spec sc spec data opts).1) S
     = scenario.set sc S).
Proof.
  intros Hch. split.
  - intros c Hc HS. rewrite apply_spec_eq in Hc.
    pose proof (sets_loop_calls_mentioned spec opts (scenario.set_list sc)
                  (mkState (prepared opts sc) ∅ []
                     (prepare_calls opts ++ [set_list_call])) c S) as Hloop.
    assert (c ∉ prepare_calls opts ++ [set_list_call]) as Hpre.
    { unfold prepare_calls. intros Hc'.
      destruct (dry_run opts); cbn [app] in Hc';
        repeat (apply elem_of_cons in Hc' as [->|Hc']; [done|]);
        by apply elem_of_nil in Hc'. }
    destruct (for_each (scenario.set_list sc) (process_set spec opts) _)
      as [st [[]|e]]; cbn [fst calls] in Hc, Hloop.
    + apply elem_of_app in Hc as [Hc|Hc].
      * destruct (Hloop Hc HS) as [?|?]; done.
      * unfold completed_calls in Hc.
        apply elem_of_app in Hc as [Hc|[Hc|Hc]%elem_of_app].
        -- by apply list_elem_of_fmap in Hc as (u & -> & _).
        -- by destruct (data_calls_set _ _ _ _ S Hc).
        -- destruct (dry_run opts); [by apply elem_of_nil in Hc|].
           by apply list_elem_of_singleton in Hc as ->.
    + destruct (Hloop Hc HS) as [?|?]; done.
  - intros Hk.
    destruct (first_unsatisfied spec sc (scenario.set_list sc))
      as [Hall|(pre & S' & post & e' & Hl & Hpre & Hm)].
    + destruct (apply_spec_Return sc spec data opts Hall) as (lg & cs & ->).
      cbn [fst store]. rewrite completed_set by done.
      rewrite sets_effect_set_unmentioned by done. cbn [fst].
      apply prepared_set.
    + destruct (apply_spec_Raise sc spec data opts _ _ _ _ Hl Hpre Hm)
        as (lg & cs & ->).
      cbn [fst store]. rewrite sets_effect_set_unmentioned by done.
      cbn [fst]. apply prepared_set.
Qed.

(** The end-to-end scenario on the store with two sets does not touch the
    set [commodity]. *)
Lemma unmentioned_set_untouched_witness :
  scenario.set (store (apply_spec two_sets add_gas None default_options).1)
    "commodity" = [Ident "coal"].
Proof.
  refine (proj2 (unmentioned_set_untouched two_sets add_gas None
                   default_options "commodity" _) _).
  - by vm_compute.
  - intros f Hf. discriminate Hf.
Defined.

(** ** The log of a dry run *)

Lemma emitted_quiet opts opts' lvl msg :
  quiet opts = quiet opts' → emitted opts lvl msg = emitted opts' lvl msg.
Proof. unfold emitted, setLevel. by intros ->. Qed.

Lemma set_log_tail_agree spec opts opts' S :
  quiet opts = quiet opts' → fast opts = fast opts' →
  set_log_tail spec opts S = set_log_tail spec opts' S.
Proof.
  intros Hq Hf. unfold set_log_tail. rewrite Hf.
  assert (flat_map (λ e, emitted opts INFO (msg_remove e))
            (set_at (remove spec) S)
          = flat_map (λ e, emitted opts' INFO (msg_remove e))
              (set_at (remove spec) S)) as ->.
  { induction (set_at (remove spec) S) as [|e l IH]; simpl; [done|].
    by rewrite IH, (emitted_quiet opts opts'). }
  by rewrite !(emitted_quiet opts opts').
Qed.

(** On a list of distinct sets, the records that the loop logs and its
    outcome depend on the options only through [quiet] and [fast]. *)
Lemma sets_loop_agree spec opts opts' l :
  NoDup l → quiet opts = quiet opts' → fast opts = fast opts' →
  ∀ st st',
    log st = log st' →
    (∀ S, S ∈ l → scenario.set (store st) S = scenario.set (store st') S) →
    log (for_each l (process_set spec opts) st).1
    = log (for_each l (process_set spec opts') st').1
    ∧ (for_each l (process_set spec opts) st).2
      = (for_each l (process_set spec opts') st').2.
Proof.
  intros Hnd Hq Hf.
  induction Hnd as [|S l Hnotin Hnd IH]; intros st st' Hlog Hsets; simpl.
  - done.
  - rewrite !bind_eq, !process_set_eq.
    assert (∀ S', S' ∈ l →
              scenario.set (store st) S' = scenario.set (store st') S') as Hl
      by (intros S' HS'; apply Hsets, elem_of_cons; by right).
    destruct (check spec S =? 0)%nat; [by apply IH|]. cbn zeta.
    rewrite <-(Hsets S) by (apply elem_of_cons; by left).
    destruct (missing (set_at (require spec) S) (scenario.set (store st) S)).
    + cbn [fst snd log]. unfold set_log_head.
      by rewrite Hlog, !(emitted_quiet opts opts').
    + apply IH; cbn [store log].
      * unfold set_log_head.
        by rewrite Hlog, !(emitted_quiet opts opts'),
             (set_log_tail_agree spec opts opts').
      * intros S' HS'. rewrite !set_effect_set. cbn [fst].
        rewrite !decide_False by (intros ->; done).
        by rewrite !app_nil_r, Hl.
Qed.

Lemma sets_loop_fast_dump spec opts l st :
  fast opts = true → dump (for_each l (process_set spec opts) st).1 = dump st.
Proof.
  intros Hf. revert st. induction l as [|S l IH]; intros st; simpl; [done|].
  rewrite bind_eq, process_set_eq.
  destruct (check spec S =? 0)%nat; [apply IH|]. cbn zeta.
  destruct (missing (set_at (require spec) S) (scenario.set (store st) S));
    [done|].
  rewrite IH. cbn [dump]. by apply set_effect_fast.
Qed.

(** Fast calls on a store with distinct set names log the same records
    whether [dry_run] is true or false, and whatever the commit message and
    the callable [data] are: the log of a dry run is the log of the real
    run. *)
Theorem dry_run_logs_the_same sc spec data data' opts opts' :
  NoDup (scenario.set_list sc) →
  fast opts = true → fast opts' = true →
  quiet opts = quiet opts' →
  log (apply_spec sc spec data opts).1 = log (apply_spec sc spec data' opts').1.
Proof.
  intros Hnd Hf Hf' Hq. rewrite !apply_spec_eq.
  destruct (sets_loop_agree spec opts opts' (scenario.set_list sc) Hnd Hq
              (eq_trans Hf (eq_sym Hf'))
              (mkState (prepared opts sc) ∅ []
                 (prepare_calls opts ++ [set_list_call]))
              (mkState (prepared opts' sc) ∅ []
                 (prepare_calls opts' ++ [set_list_call])))
    as [Hlog Hout]; [done|intros S _; cbn [store]; by rewrite !prepared_set|].
  pose proof (sets_loop_fast_dump spec opts (scenario.set_list sc)
                (mkState (prepared opts sc) ∅ []
                   (prepare_calls opts ++ [set_list_call])) Hf) as Hd.
  pose proof (sets_loop_fast_dump spec opts' (scenario.set_list sc)
                (mkState (prepared opts' sc) ∅ []
                   (prepare_calls opts' ++ [set_list_call])) Hf') as Hd'.
  destruct (for_each (scenario.set_list sc) (process_set spec opts) _)
    as [st [[]|e]];
    destruct (for_each (scenario.set_list sc) (process_set spec opts') _)
      as [st' [[]|e']]; cbn [fst snd log dump] in *; try done.
  rewrite Hlog, Hd, Hd'. f_equal. unfold completed_log.
  assert (flat_map
            (λ u, emitted opts INFO (msg_add_unit (id (ensure_Code u))))
            (set_at (add spec) "unit")
          = flat_map
              (λ u, emitted opts' INFO (msg_add_unit (id (ensure_Code u))))
              (set_at (add spec) "unit")) as ->.
  { induction (set_at (add spec) "unit") as [|u l IH]; simpl; [done|].
    by rewrite IH, (emitted_quiet opts opts'). }
  by rewrite !(emitted_quiet opts opts').
Qed.

(** The removal of [coal_ppl], fast: the dry run and the real run log the
    same records. *)
Lemma dry_run_logs_the_same_witness :
  log (apply_spec store_with_rows remove_coal None
         (mkOptions true true false None)).1
  = log (apply_spec store_with_rows remove_coal None
           (mkOptions false true false None)).1.
Proof.
  apply dry_run_logs_the_same; [|reflexivity..].
  apply (bool_decide_unpack _). by vm_compute.
Defined.

(** ** A dry run followed by the real run *)

Lemma strip_all_with_units set_name b l us sc d :
  strip_all set_name b l (with_units us sc, d)
  = (with_units us (strip_all set_name b l (sc, d)).1,
     (strip_all set_name b l (sc, d)).2).
Proof.
  unfold strip_all. revert sc d. induction l as [|e l IH]; intros sc d; simpl;
    [done|].
  assert (strip_par_data (with_units us sc) set_name e b d
          = (with_units us (strip_par_data sc set_name e b d).1,
             (strip_par_data sc set_name e b d).2)) as ->
    by (by destruct b).
  rewrite IH. by rewrite <-surjective_pairing.
Qed.

Lemma add_all_with_units set_name l us sc :
  add_all set_name l (with_units us sc)
  = with_units us (add_all set_name l sc).
Proof.
  unfold add_all. revert sc. induction l as [|e l IH]; intros sc; simpl;
    [done|].
  by rewrite <-IH.
Qed.

Lemma set_effect_with_units spec opts set_name us p :
  set_effect spec opts set_name (with_units us p.1, p.2)
  = (with_units us (set_effect spec opts set_name p).1,
     (set_effect spec opts set_name p).2).
Proof.
  unfold set_effect. destruct p as [sc d]. cbn [fst snd].
  destruct (fast opts), (dry_run opts); cbn [fst snd];
    rewrite ?strip_all_with_units; cbn [fst snd];
    rewrite ?add_all_with_units; done.
Qed.

(** The loop treats the unit registry as a passenger. *)
Lemma sets_effect_with_units spec opts l us p :
  sets_effect spec opts l (with_units us p.1, p.2)
  = (with_units us (sets_effect spec opts l p).1,
     (sets_effect spec opts l p).2).
Proof.
  unfold sets_effect. revert p. induction l as [|S l IH]; intros p; simpl.
  - done.
  - rewrite set_effect_with_units.
    by rewrite (IH (set_effect spec opts S p)).
Qed.

Lemma dry_run_store sc spec data opts :
  dry_run opts = true → requirements_met spec sc → respects_dry_run data →
  store (apply_spec sc spec data opts).1
  = with_units (units sc ++ unit_entries (set_at (add spec) "unit")) sc.
Proof.
  intros Hdry Hreq Hdata.
  destruct (apply_spec_Return sc spec data opts
              (proj1 (requirements_met_satisfied spec sc) Hreq))
    as (lg & cs & ->).
  cbn [fst store]. rewrite sets_effect_dry by done. cbn [fst].
  unfold completed, prepared. rewrite Hdry.
  unfold data_effect. destruct data as [f|].
  - rewrite (Hdata f eq_refl). unfold add_par_data.
    destruct (truthy _); apply register_all_eq.
  - apply register_all_eq.
Qed.

(** Validating with a dry run first does not change what the real run does:
    when the store has the required elements, the real run (without a
    callable [data]) on the store that the dry run has left returns, and it
    leaves the sets, the parameter tables, the flags and the commits that the
    real run alone leaves; the two stores can differ in the unit registry
    only, where the dry run has already registered the units of the spec. *)
Theorem dry_then_real sc spec data opts opts' :
  requirements_met spec sc →
  respects_dry_run data →
  dry_run opts = true →
  (apply_spec (store (apply_spec sc spec data opts).1) spec None opts').2
  = Return tt
  ∧ with_units []
      (store (apply_spec (store (apply_spec sc spec data opts).1) spec None
                opts').1)
    = with_units [] (store (apply_spec sc spec None opts').1).
Proof.
  intros Hreq Hdata Hdry.
  rewrite dry_run_store by done.
  set (us := units sc ++ unit_entries (set_at (add spec) "unit")).
  assert (∀ S, S ∈ scenario.set_list sc → satisfied spec sc S) as Hall
    by (by apply requirements_met_satisfied).
  destruct (apply_spec_Return (with_units us sc) spec None opts')
    as (lg & cs & ->); [done|].
  destruct (apply_spec_Return sc spec None opts' Hall) as (lg' & cs' & ->).
  cbn [fst snd store]. split; [done|].
  assert (prepared opts' (with_units us sc)
          = with_units us (prepared opts' sc)) as ->
    by (by rewrite !prepared_eq).
  change (scenario.set_list (with_units us sc)) with (scenario.set_list sc).
  pose proof (sets_effect_with_units spec opts' (scenario.set_list sc) us
                (prepared opts' sc, ∅)) as Hw.
  cbn [fst snd] in Hw. rewrite Hw. clear Hw. cbn [fst].
  unfold completed, data_effect. rewrite !register_all_eq.
  by destruct (dry_run opts').
Qed.

(** [add = {technology: ["gas_ppl"], unit: ["kg_CO2"]}] validated first,
    then applied. *)
Lemma dry_then_real_witness :
  scenario.set
    (store (apply_spec
              (store (apply_spec coal_store
                        (mkSpec no_info no_info
                           (mkInfo {["technology" := [Ident "gas_ppl"];
                                     "unit" := [Ident "kg_CO2"]]}))
                        None dry).1)
              (mkSpec no_info no_info
                 (mkInfo {["technology" := [Ident "gas_ppl"];
                           "unit" := [Ident "kg_CO2"]]}))
              None default_options).1) "technology"
  = [Ident "coal_ppl"; Ident "gas_ppl"].
Proof.
  destruct (dry_then_real coal_store
              (mkSpec no_info no_info
                 (mkInfo {["technology" := [Ident "gas_ppl"];
                           "unit" := [Ident "kg_CO2"]]}))
              None dry default_options) as [_ Heq].
  - intros S e _ He. unfold set_at in He. simpl in He.
    rewrite lookup_total_empty in He.
    apply elem_of_nil in He. destruct He.
  - intros f Hf. discriminate Hf.
  - reflexivity.
  - apply (f_equal (λ sc, scenario.set sc "technology")) in Heq.
    unfold scenario.set, with_units in Heq. cbn [set_data] in Heq.
    unfold scenario.set. rewrite Heq. by vm_compute.
Defined.

(** * Properties of the other functions *)

(** ** [set_trade_tec] *)

Lemma append_nil_l (b : string) : "" +:+ b = b.
Proof. reflexivity. Qed.

Lemma append_cons c (a b : string) : String c a +:+ b = String c (a +:+ b).
Proof. reflexivity. Qed.

Lemma prefix_append p s :
  String.prefix p s = true ↔ ∃ b, s = p +:+ b.
Proof.
  revert p. induction s as [|c s IH]; intros [|a p]; cbn [String.prefix].
  - split; [by exists ""|done].
  - split; [done|]. intros (b & Hb). by rewrite append_cons in Hb.
  - split; [by exists (String c s)|done].
  - destruct (Ascii.ascii_dec a c) as [->|Hne].
    + rewrite IH. split; intros (b & Hb); exists b.
      * by rewrite append_cons, Hb.
      * rewrite append_cons in Hb. congruence.
    + split; [done|]. intros (b & Hb). rewrite append_cons in Hb. congruence.
Qed.

(** [str_in] is the occurrence of [sub] somewhere in [s]. *)
Lemma str_in_occurs sub s :
  str_in sub s = true ↔ ∃ a b, s = a +:+ sub +:+ b.
Proof.
  induction s as [|c s IH]; cbn [str_in].
  - rewrite prefix_append. split.
    + intros (b & Hb). by exists "", b.
    + intros ([|c a] & b & Hab); [by exists b|by rewrite append_cons in Hab].
  - rewrite orb_true_iff, prefix_append, IH. split.
    + intros [(b & Hb)|(a & b & Hab)]; [by exists "", b|].
      exists (String c a), b. by rewrite append_cons, Hab.
    + intros ([|c' a] & b & Hab); [left; by exists b|].
      right. exists a, b. rewrite append_cons in Hab. congruence.
Qed.

Lemma set_trade_tec_step_eq arr i :
  set_trade_tec_step arr i = arr ++ trade_tecs i.
Proof.
  unfold set_trade_tec_step, trade_tecs.
  destruct (str_in "Import" i), (str_in "Export" i), (str_in "Trade" i);
    by rewrite <-?app_assoc, ?app_nil_r.
Qed.

Lemma set_trade_tec_from arr x :
  foldl set_trade_tec_step arr x = arr ++ flat_map trade_tecs x.
Proof.
  revert arr. induction x as [|i x IH]; intros arr; simpl.
  - by rewrite app_nil_r.
  - by rewrite IH, set_trade_tec_step_eq, <-app_assoc.
Qed.

(** The entries are treated one by one: the result for a list in two parts
    is the result for the first part followed by the result for the second,
    and the result for the empty list is empty. *)
Theorem set_trade_tec_app x y :
  set_trade_tec (x ++ y) = set_trade_tec x ++ set_trade_tec y
  ∧ set_trade_tec [] = [].
Proof.
  unfold set_trade_tec. split; [|done].
  by rewrite !set_trade_tec_from, flat_map_app.
Qed.

(** When every entry has exactly one of the words [Import], [Export] and
    [Trade] in it, the result has one name per entry, at the place of the
    entry. *)
Theorem set_trade_tec_aligned x :
  (∀ i, i ∈ x → length (trade_tecs i) = 1) →
  length (set_trade_tec x) = length x
  ∧ ∀ k i, x !! k = Some i →
           ∃ t, set_trade_tec x !! k = Some t ∧ trade_tecs i = [t].
Proof.
  unfold set_trade_tec. rewrite set_trade_tec_from. cbn [app].
  induction x as [|i0 x IH]; intros Hone; [done|].
  destruct (trade_tecs i0) as [|t [|? ?]] eqn:Ht;
    try (specialize (Hone i0 (list_elem_of_here _ _)); rewrite Ht in Hone;
         simpl in Hone; lia).
  destruct IH as [Hlen Hat].
  { intros i Hi. apply Hone, elem_of_cons. by right. }
  simpl. rewrite Ht. simpl. split; [by rewrite Hlen|].
  intros [|k] i Hk; simpl in Hk.
  - injection Hk as <-. exists t. by rewrite Ht.
  - by apply Hat.
Qed.

Lemma set_trade_tec_aligned_witness :
  length (set_trade_tec ["Import (t)"; "Export (t)"; "Trade balance"])
  = length ["Import (t)"; "Export (t)"; "Trade balance"]
  ∧ ∃ t, set_trade_tec ["Import (t)"; "Export (t)"; "Trade balance"] !! 1
         = Some t ∧ trade_tecs "Export (t)" = [t].
Proof.
  destruct (set_trade_tec_aligned
              ["Import (t)"; "Export (t)"; "Trade balance"]) as [Hlen Hat].
  - intros i Hi. repeat (apply elem_of_cons in Hi as [->|Hi]; [done|]).
    by apply elem_of_nil in Hi.
  - split; [exact Hlen|]. by apply (Hat 1).
Defined.

(** An entry with none of the three words in it, in their exact case, is
    passed over without a name: when no entry has more than one of the words
    and some entry has none, the result is shorter than the input. *)
Theorem set_trade_tec_drops x i :
  (∀ j, j ∈ x → (length (trade_tecs j) ≤ 1)%nat) →
  i ∈ x →
  str_in "Import" i = false → str_in "Export" i = false →
  str_in "Trade" i = false →
  (length (set_trade_tec x) < length x)%nat.
Proof.
  unfold set_trade_tec. rewrite set_trade_tec_from. cbn [app].
  intros Hle Hi H1 H2 H3.
  assert (trade_tecs i = []) as Hnone
    by (unfold trade_tecs; by rewrite H1, H2, H3).
  clear H1 H2 H3.
  induction x as [|j x IH]; [by apply elem_of_nil in Hi|].
  simpl. rewrite length_app.
  assert (length (flat_map trade_tecs x) ≤ length x)%nat as Hx.
  { assert (∀ l, (∀ j', j' ∈ l → (length (trade_tecs j') ≤ 1)%nat) →
                 (length (flat_map trade_tecs l) ≤ length l)%nat) as Hgen.
    { clear. induction l as [|j l IH]; intros Hle; simpl; [done|].
      rewrite length_app. pose proof (Hle j (list_elem_of_here _ _)).
      assert (length (flat_map trade_tecs l) ≤ length l)%nat
        by (apply IH; intros j' Hj'; apply Hle, elem_of_cons; by right).
      lia. }
    apply Hgen. intros j' Hj'. apply Hle, elem_of_cons. by right. }
  apply elem_of_cons in Hi as [<-|Hi].
  - rewrite Hnone. simpl. lia.
  - pose proof (Hle j (list_elem_of_here _ _)).
    assert (length (flat_map trade_tecs x) < length x)%nat
      by (apply IH; [intros j' Hj'; apply Hle, elem_of_cons; by right|done]).
    lia.
Qed.

Lemma set_trade_tec_drops_witness :
  (length (set_trade_tec ["Import (t)"; "import (t)"; "Production"]) < 3)%nat.
Proof.
  apply (set_trade_tec_drops ["Import (t)"; "import (t)"; "Production"]
           "import (t)").
  - intros i Hi.
    repeat (apply elem_of_cons in Hi as [->|Hi]; [vm_compute; lia|]).
    by apply elem_of_nil in Hi.
  - apply (bool_decide_unpack _). by vm_compute.
  - reflexivity.
  - reflexivity.
  - reflexivity.
Defined.

(** ** [LabelFirst] *)

Lemma label_all_used {V : Type} (format : string → V → string) self values :
  first self = false →
  label_all format self values = (self, inr <$> values).
Proof.
  intros Hf. induction values as [|v values IH]; [done|].
  cbn [label_all]. unfold LabelFirst_call. rewrite Hf. cbn [fst snd].
  assert (mkLabelFirst (fmt_string self) false = self) as ->
    by (destruct self; simpl in *; by subst).
  by rewrite IH.
Qed.

(** A labeller formats the first value it is ever called with and no other:
    of a sequence of values the first gets the format string applied and the
    rest are returned bare; and once it has labelled a sequence, it returns
    every value of a further sequence bare, the first one too. *)
Theorem LabelFirst_formats_once {V : Type} (format : string → V → string)
    fmt v values more :
  label_all format (LabelFirst_init fmt) (v :: values)
  = (mkLabelFirst fmt false, inl (format fmt v) :: (inr <$> values))
  ∧ (label_all format
       (label_all format (LabelFirst_init fmt) (v :: values)).1 more).2
    = inr <$> more.
Proof.
  assert (label_all format (LabelFirst_init fmt) (v :: values)
          = (mkLabelFirst fmt false, inl (format fmt v) :: (inr <$> values)))
    as Heq.
  { cbn [label_all]. unfold LabelFirst_call, LabelFirst_init.
    cbn [first fmt_string fst snd].
    by rewrite label_all_used. }
  split; [exact Heq|].
  rewrite Heq. cbn [fst]. by rewrite label_all_used.
Qed.

(** ** [as_quantity] and [ldv_distance] *)

(** [as_quantity], case by case. *)
Lemma as_quantity_eq {V : Type} (info : gmap string V) :
  as_quantity info =
  match info !! "_dim", info !! "_unit" with
  | Some dim, Some unit =>
      (delete "_unit" (delete "_dim" info),
       inl (mkQuantity None dim unit (delete "_unit" (delete "_dim" info))))
  | Some dim, None => (delete "_dim" info, inr (mkKeyError "_unit"))
  | None, _ => (info, inr (mkKeyError "_dim"))
  end.
Proof.
  unfold as_quantity, dict_pop.
  destruct (info !! "_dim") as [dim|] eqn:Hd.
  - rewrite lookup_delete_ne by done.
    by destruct (info !! "_unit").
  - by destruct (info !! "_unit").
Qed.

(** The dictionary that [as_quantity] leaves has no key ["_dim"]. *)
Lemma as_quantity_consumes {V : Type} (info : gmap string V) :
  (as_quantity info).1 !! "_dim" = None.
Proof.
  rewrite as_quantity_eq.
  destruct (info !! "_dim") as [dim|] eqn:Hd; [|by destruct (info !! "_unit")].
  destruct (info !! "_unit"); cbn [fst].
  - rewrite lookup_delete_ne by done. apply lookup_delete_eq.
  - apply lookup_delete_eq.
Qed.

(** Round trip: from the data of a quantity with the entries ["_dim"] and
    ["_unit"] added, [as_quantity] gives the quantity of that dimension,
    units and data, and leaves the dictionary reduced to the data. *)
Theorem as_quantity_round_trip {V : Type} (data : gmap string V) dim unit :
  data !! "_dim" = None → data !! "_unit" = None →
  as_quantity (<["_dim" := dim]> (<["_unit" := unit]> data))
  = (data, inl (mkQuantity None dim unit data)).
Proof.
  intros Hd Hu. rewrite as_quantity_eq.
  rewrite lookup_insert_eq, lookup_insert_ne, lookup_insert_eq by done.
  cbv beta iota.
  rewrite delete_insert_eq, (delete_id _ "_dim"), delete_insert_eq
    by (by rewrite lookup_insert_ne).
  by rewrite delete_id.
Qed.

Lemma as_quantity_round_trip_witness :
  as_quantity (<["_dim" := "n"]> (<["_unit" := "km"]> {["R11_NAM" := "1"]}))
  = ({["R11_NAM" := "1"]},
     inl (mkQuantity None "n" "km" {["R11_NAM" := "1"]})).
Proof. by apply as_quantity_round_trip. Defined.

(** [as_quantity] uses up its argument: a second call on the same
    dictionary raises [KeyError] for ["_dim"], whatever the dictionary held
    and whether the first call returned or raised. *)
Theorem as_quantity_twice {V : Type} (info : gmap string V) :
  (as_quantity (as_quantity info).1).2 = inr (mkKeyError "_dim").
Proof.
  rewrite (as_quantity_eq (as_quantity info).1).
  by rewrite as_quantity_consumes.
Qed.

(** A dictionary with ["_dim"] and without ["_unit"] makes [as_quantity]
    raise [KeyError] for ["_unit"], and has lost its entry ["_dim"] by
    then. *)
Theorem as_quantity_partial {V : Type} (info : gmap string V) dim :
  info !! "_dim" = Some dim → info !! "_unit" = None →
  as_quantity info = (delete "_dim" info, inr (mkKeyError "_unit")).
Proof. intros Hd Hu. by rewrite as_quantity_eq, Hd, Hu. Qed.

Lemma as_quantity_partial_witness :
  as_quantity (<["_dim" := "n"]> {["R11_NAM" := "1"]})
  = (delete "_dim" (<["_dim" := "n"]> {["R11_NAM" := "1"]}),
     inr (mkKeyError "_unit")).
Proof. by apply (as_quantity_partial _ "n"). Defined.

(** [ldv_distance] cannot be called twice on the same [config]: the first
    call, whether it returns or raises, leaves [config["ldv activity"]]
    without its entry ["_dim"], and the second raises [KeyError] for it. *)
Theorem ldv_distance_twice {V : Type}
    (product : Quantity V → Quantity V → Quantity V) (config : ldv_config V) :
  (ldv_distance product (ldv_distance product config).1).2
  = inr (mkKeyError "_dim").
Proof.
  assert (ldv_activity (ldv_distance product config).1 !! "_dim" = None) as Hc.
  { unfold ldv_distance.
    pose proof (as_quantity_consumes (ldv_activity config)) as H.
    destruct (as_quantity (ldv_activity config)) as [info1 [q1|e1]];
      [|done].
    by destruct (as_quantity (factor_activity_ldv config)) as [info2 [q2|e2]]. }
  unfold ldv_distance at 1.
  rewrite (as_quantity_eq (ldv_activity _)), Hc. done.
Qed.

(** ** The names of the sheets *)

Lemma split_at_sep_Some s a b :
  split_at_sep s = Some (a, b) ↔
  ∃ c, s = a +:+ String c b ∧ is_sep c = true ∧ split_at_sep a = None.
Proof.
  revert a b. induction s as [|c s IH]; intros a b; cbn [split_at_sep].
  - split; [done|]. intros (c & Hs & _). by destruct a.
  - destruct (is_sep c) eqn:Hc.
    + split.
      * intros [= <- <-]. by exists c.
      * intros (c' & Hs & Hc' & Ha). destruct a as [|c0 a].
        -- rewrite append_nil_l in Hs. by injection Hs as -> ->.
        -- rewrite append_cons in Hs. injection Hs as <- _.
           cbn [split_at_sep] in Ha. by rewrite Hc in Ha.
    + split.
      * destruct (split_at_sep s) as [[a' b']|] eqn:Hs; [|done].
        intros [= <- <-].
        destruct (proj1 (IH a' b') eq_refl) as (c' & -> & Hc' & Ha').
        exists c'. rewrite append_cons. split; [done|]. split; [done|].
        cbn [split_at_sep]. by rewrite Hc, Ha'.
      * intros (c' & Hs & Hc' & Ha). destruct a as [|c0 a].
        -- rewrite append_nil_l in Hs. injection Hs as -> ->. congruence.
        -- rewrite append_cons in Hs. injection Hs as <- ->.
           cbn [split_at_sep] in Ha. rewrite Hc in Ha.
           destruct (split_at_sep a) as [[? ?]|] eqn:Ha'; [done|].
           assert (split_at_sep (a +:+ String c' b) = Some (a, b)) as ->;
             [|done].
           apply IH. by exists c'.
Qed.

Lemma SECTOR_MEASURE_fullmatch_intro sheet_name s m :
  SECTOR_MEASURE_matches sheet_name s m →
  SECTOR_MEASURE_fullmatch sheet_name = Some (s, m).
Proof.
  unfold SECTOR_MEASURE_fullmatch, SECTOR_MEASURE_matches.
  intros (c & -> & Hc & Hs & Hnone & Hm & Hn).
  assert (split_at_sep (s +:+ String c m) = Some (s, m)) as ->
    by (apply split_at_sep_Some; by exists c).
  rewrite Hn, !bool_decide_eq_false_2 by done. done.
Qed.

(** The groups of a match are unique: [fullmatch] succeeds with the groups
    [s] and [m] exactly when the name reads as [s], one space or hyphen, [m]
    in the way the expression demands; [s] is then the text before the first
    space or hyphen of the name, and [m] all the text after it. *)
Theorem SECTOR_MEASURE_fullmatch_spec sheet_name s m :
  SECTOR_MEASURE_fullmatch sheet_name = Some (s, m) ↔
  SECTOR_MEASURE_matches sheet_name s m.
Proof.
  split; [|apply SECTOR_MEASURE_fullmatch_intro].
  unfold SECTOR_MEASURE_fullmatch, SECTOR_MEASURE_matches.
  destruct (split_at_sep sheet_name) as [[a b]|] eqn:Hs; [|done].
  destruct (negb (bool_decide (a = "")) && negb (bool_decide (b = ""))
            && no_newline b) eqn:Hok; [|done].
  intros [= <- <-].
  apply andb_true_iff in Hok as [[Ha Hb]%andb_true_iff Hn].
  apply negb_true_iff, bool_decide_eq_false in Ha, Hb.
  apply split_at_sep_Some in Hs as (c & -> & Hc & Hnone).
  by exists c.
Qed.

(** A sheet whose name puts a hyphen between two spaces after the sector,
    as in [Transport - Energy], gets its sector, lowered by [str.lower], and
    no measure: the second group starts with the hyphen and is neither
    [Energy] nor [Emissions]. *)
Theorem sheet_assign_spaced_hyphen (lower : string → string) s rest :
  s ≠ "" → split_at_sep s = None → no_newline rest = true →
  sheet_assign lower (s +:+ " - " +:+ rest) =
  Some (if bool_decide (s = "Activity") then [] else [("SECTOR", lower s)]).
Proof.
  intros Hs Hnone Hn. unfold sheet_assign.
  assert (SECTOR_MEASURE_fullmatch (s +:+ " - " +:+ rest)
          = Some (s, "- " +:+ rest)) as ->.
  { apply SECTOR_MEASURE_fullmatch_intro.
    exists (Ascii.ascii_of_nat 32). repeat split; try done. }
  assert (bool_decide ("- " +:+ rest ∈ ["Energy"; "Emissions"]) = false) as ->.
  { apply bool_decide_eq_false.
    intros [H|[H|H]%elem_of_cons]%elem_of_cons;
      [discriminate H|discriminate H|by apply elem_of_nil in H]. }
  rewrite app_nil_r. f_equal.
  destruct (decide (s = "Activity")) as [->|Hne].
  - done.
  - rewrite !bool_decide_eq_false_2; [done|done|].
    by intros ?%list_elem_of_singleton.
Qed.

(** The ASCII sheet names [Transport - Energy] and [Transport-Energy]. *)
Lemma sheet_assign_spaced_hyphen_witness :
  sheet_assign ascii_lower "Transport - Energy"
  = Some [("SECTOR", "transport")]
  ∧ sheet_assign ascii_lower "Transport-Energy"
    = Some [("SECTOR", "transport"); ("MEASURE", "energy")].
Proof.
  split; [|by vm_compute].
  by apply (sheet_assign_spaced_hyphen ascii_lower "Transport" "Energy").
Defined.
